(** * lib_tar: a shallow embedding of the archive walker of [lib_tar.c]

    The development follows the last revision of [lib_tar.c] (the one that
    factors [check_end] and [next_header] out of the loops).  The byte source
    behind the descriptor is a finite list of bytes with a read position;
    [read] and [lseek] are those of POSIX.  The C integer types are those of
    the LP64 Linux ABI the project is built for: [int] has 32 bits, [long],
    [ssize_t] and [off_t] 64 bits, [size_t] 64 bits without sign, and [char]
    is signed.  Every wrap-around is written out.

    The functions keep their names; [exists] and [list], which Rocq reserves
    or uses, are [exists_] and [list_].  A loop of the source is a function
    that is recursive on a bound [fuel] on the number of its iterations. *)

From Stdlib Require Import ZArith Bool Lia.
From Stdlib Require Import Strings.Byte.
From Stdlib Require Import Strings.String.
From Stdlib Require Import List.
Import ListNotations.
Open Scope Z_scope.

(** ** Machine integers *)

Definition wrap_signed (w : Z) (x : Z) : Z :=
  (x + 2 ^ (w - 1)) mod 2 ^ w - 2 ^ (w - 1).

Definition to_int (x : Z) : Z := wrap_signed 32 x.

Definition to_long (x : Z) : Z := wrap_signed 64 x.

Definition to_size_t (x : Z) : Z := x mod 2 ^ 64.

Definition INT_MAX : Z := 2 ^ 31 - 1.

Definition LONG_MAX : Z := 2 ^ 63 - 1.

(** A byte read through [unsigned char] and through (signed) [char]. *)
Definition uchar (b : byte) : Z := Z.of_N (Byte.to_N b).

Definition schar (b : byte) : Z :=
  if uchar b <? 128 then uchar b else uchar b - 256.

Definition NUL : byte := x00.

Definition is_nul (b : byte) : bool := Byte.eqb b NUL.

(** ** C strings

    A [char *] is modelled by the list of bytes that starts at the pointer and
    runs to the end of the object it points into; a read past that end gives
    NUL.  A path argument is such a list, with or without its terminator. *)

Definition peek (p : list byte) : byte :=
  match p with
  | [] => NUL
  | b :: _ => b
  end.

(** The characters of the string at [p], without the terminator. *)
Fixpoint c_str (p : list byte) : list byte :=
  match p with
  | [] => []
  | b :: p' => if is_nul b then [] else b :: c_str p'
  end.

Definition strlen (p : list byte) : nat := List.length (c_str p).

Fixpoint strncmp (a b : list byte) (n : nat) : Z :=
  match n with
  | O => 0
  | S n' =>
      let x := peek a in
      let y := peek b in
      if Byte.eqb x y
      then if is_nul x then 0 else strncmp (tl a) (tl b) n'
      else uchar x - uchar y
  end.

Fixpoint prefixb (p l : list byte) : bool :=
  match p, l with
  | [], _ => true
  | x :: p', y :: l' => Byte.eqb x y && prefixb p' l'
  | _ :: _, [] => false
  end.

Fixpoint infixb (p l : list byte) : bool :=
  prefixb p l ||
  match l with
  | [] => false
  | _ :: l' => infixb p l'
  end.

(** [strstr haystack needle != NULL]. *)
Definition strstr (haystack needle : list byte) : bool :=
  infixb (c_str needle) (c_str haystack).

(** ** The byte source behind the descriptor *)

Record fd_state : Type := mkFd { fd_data : list byte; fd_pos : Z }.

(** [read(fd, buf, count)]: the bytes delivered (fewer than [count] near the
    end of the file) and the descriptor afterwards. *)
Definition read (fd : fd_state) (count : Z) : list byte * fd_state :=
  let bs := firstn (Z.to_nat (Z.min count (Z.of_nat (List.length (fd_data fd)) - fd_pos fd)))
                   (skipn (Z.to_nat (fd_pos fd)) (fd_data fd)) in
  (bs, mkFd (fd_data fd) (fd_pos fd + Z.of_nat (List.length bs))).

(** [lseek(fd, off, SEEK_CUR)]: a seek before the start of the file fails
    (EINVAL) and leaves the position where it was; the code never looks at
    the return value.  Positions have no upper limit here: the failure of a
    seek beyond the largest [off_t], 2^63 - 1, is not modelled, the files
    and offsets of the development stay far below it. *)
Definition lseek_cur (fd : fd_state) (off : Z) : fd_state :=
  if 0 <=? fd_pos fd + off then mkFd (fd_data fd) (fd_pos fd + off) else fd.

Definition lseek_set (fd : fd_state) (off : Z) : fd_state :=
  if 0 <=? off then mkFd (fd_data fd) off else fd.

(** The result of a library call in the model.  [Undef] stands for a run in
    which a [read] into a local array came back short: the code, which never
    looks at what [read] returns, then goes on with whatever the array held
    before, for a fresh array nothing that C defines.  [OutOfFuel] stands for
    a loop that has not finished within the given number of iterations. *)
Inductive outcome (A : Type) : Type :=
| Ret (a : A)
| Undef
| OutOfFuel.

Arguments Ret {A} a.
Arguments Undef {A}.
Arguments OutOfFuel {A}.

(** [read(tar_fd, buf, 512)] into the uninitialised [char buf[512]]. *)
Definition read_header (fd : fd_state) : option (list byte * fd_state) :=
  let (bs, fd1) := read fd 512 in
  if (List.length bs =? 512)%nat then Some (bs, fd1) else None.

(** ** The header block ([tar_header_t]) *)

(** Modelled from the spec: [tar_header_t] of [lib_tar.h], which is not among
    the sources.  The fields are those of section 3 of the specification, at
    the offsets of the POSIX ustar header, with which the checksum loop of
    [check_archive] (the checksum field at bytes 148 to 155) agrees.  A field
    is the pointer to its first byte inside the 512-byte buffer. *)
Definition hdr_name (buf : list byte) : list byte := buf.

Definition hdr_size (buf : list byte) : list byte := skipn 124 buf.

Definition hdr_chksum (buf : list byte) : list byte := skipn 148 buf.

Definition hdr_typeflag (buf : list byte) : byte := nth 156 buf NUL.

Definition hdr_linkname (buf : list byte) : list byte := skipn 157 buf.

Definition hdr_magic (buf : list byte) : list byte := skipn 257 buf.

Definition hdr_version (buf : list byte) : list byte := skipn 263 buf.

(** Modelled from the spec: the type flags and the magic and version tokens
    of [lib_tar.h]; section 6 of the specification gives the tokens, the
    flags are the characters of POSIX ustar: '0' and NUL for a regular file,
    '2' for a symbolic link, '5' for a directory. *)
Definition REGTYPE : byte := x30.

Definition AREGTYPE : byte := x00.

Definition SYMTYPE : byte := x32.

Definition DIRTYPE : byte := x35.

Definition TMAGIC : list byte := list_byte_of_string "ustar".

Definition TMAGLEN : nat := 6.

Definition TVERSION : list byte := list_byte_of_string "00".

Definition TVERSLEN : nat := 2.

Definition is_space (b : byte) : bool :=
  match b with
  | x20 | x09 | x0a | x0b | x0c | x0d => true
  | _ => false
  end.

Definition octal_digit (b : byte) : option Z :=
  if (48 <=? uchar b) && (uchar b <=? 55) then Some (uchar b - 48) else None.

Fixpoint skip_spaces (p : list byte) : list byte :=
  match p with
  | b :: p' => if is_space b then skip_spaces p' else p
  | [] => []
  end.

Fixpoint octal_digits (acc : Z) (p : list byte) : Z :=
  match p with
  | b :: p' =>
      match octal_digit b with
      | Some d => octal_digits (acc * 8 + d) p'
      | None => acc
      end
  | [] => acc
  end.

(** Modelled from the spec: the macro [TAR_INT] of [lib_tar.h], which is not
    among the sources.  Section 4.1: numeric fields are parsed as octal
    ASCII, ignoring leading and trailing whitespace and a trailing null.  The
    value is a [long]; digits beyond its range saturate it. *)
Definition TAR_INT (p : list byte) : Z :=
  Z.min LONG_MAX (octal_digits 0 (skip_spaces p)).

(** ** [check_end] and [next_header] *)

(** [checksum += c] on an [int]. *)
Definition add_chars (bs : list byte) : Z :=
  fold_left (fun acc b => to_int (acc + schar b)) bs 0.

(** Lines 240-258.  The answer is [None] when the [read] was short: the sum
    then runs over bytes of [header_next_header] that nothing has written.
    The position is defined in every case. *)
Definition check_end (fd : fd_state) : option bool * fd_state :=
  let (bs, fd1) := read fd 1024 in
  let fd2 := lseek_cur fd1 (-1024) in
  if (List.length bs =? 1024)%nat
  then (Some (add_chars bs =? 0), fd2)
  else (None, fd2).

(** Lines 266-278; [next] is an [int]. *)
Definition next_header (header : list byte) : Z :=
  let next := to_int (Z.quot (TAR_INT (hdr_size header)) 512) in
  let next :=
    if negb (Z.rem (TAR_INT (hdr_size header)) 512 =? 0)
    then to_int (next + 1)
    else next in
  to_int (next * 512).

(** ** [check_archive] (lines 295-348) *)

(** The checksum loop: the bytes of the header, the eight of the checksum
    field counted as spaces. *)
Fixpoint checksum_loop (i : Z) (bs : list byte) (checksum : Z) : Z :=
  match bs with
  | [] => checksum
  | b :: bs' =>
      checksum_loop (i + 1) bs'
        (if (i <? 148) || (i >? 155)
         then to_int (checksum + schar b)
         else to_int (checksum + 32))
  end.

Definition header_checksum (buf : list byte) : Z := checksum_loop 0 buf 0.

Fixpoint check_archive_loop (fuel : nat) (fd : fd_state) (count : Z)
  : outcome (Z * fd_state) :=
  match fuel with
  | O => OutOfFuel
  | S fuel' =>
      match read_header fd with
      | None => Undef
      | Some (buf, fd1) =>
          if negb (strncmp (hdr_magic buf) TMAGIC (TMAGLEN - 1) =? 0)
          then Ret (-1, fd1)
          else if negb (strncmp (hdr_version buf) TVERSION TVERSLEN =? 0)
          then Ret (-2, fd1)
          else if negb (TAR_INT (hdr_chksum buf) =? header_checksum buf)
          then Ret (-3, fd1)
          else
            match check_end (lseek_cur fd1 (next_header buf)) with
            | (None, _) => Undef
            | (Some true, fd3) => Ret (to_int (count + 1), fd3)
            | (Some false, fd3) => check_archive_loop fuel' fd3 (to_int (count + 1))
            end
      end
  end.

Definition check_archive (fuel : nat) (fd : fd_state) : outcome (Z * fd_state) :=
  check_archive_loop fuel fd 0.

(** ** [exists], [is_dir], [is_file], [is_symlink] (lines 359-503) *)

Definition name_matches (buf path : list byte) : bool :=
  strncmp (hdr_name buf) path (strlen path) =? 0.

Fixpoint exists_ (fuel : nat) (fd : fd_state) (path : list byte)
  : outcome (Z * fd_state) :=
  match fuel with
  | O => OutOfFuel
  | S fuel' =>
      match read_header fd with
      | None => Undef
      | Some (buf, fd1) =>
          if name_matches buf path
          then Ret (1, fd1)
          else
            match check_end (lseek_cur fd1 (next_header buf)) with
            | (None, _) => Undef
            | (Some true, fd3) => Ret (0, fd3)
            | (Some false, fd3) => exists_ fuel' fd3 path
            end
      end
  end.

Fixpoint is_dir (fuel : nat) (fd : fd_state) (path : list byte)
  : outcome (Z * fd_state) :=
  match fuel with
  | O => OutOfFuel
  | S fuel' =>
      match read_header fd with
      | None => Undef
      | Some (bufer, fd1) =>
          if name_matches bufer path
          then if Byte.eqb (hdr_typeflag bufer) DIRTYPE
               then Ret (1, fd1)
               else Ret (0, fd1)
          else
            match check_end (lseek_cur fd1 (next_header bufer)) with
            | (None, _) => Undef
            | (Some true, fd3) => Ret (0, fd3)
            | (Some false, fd3) => is_dir fuel' fd3 path
            end
      end
  end.

Fixpoint is_file (fuel : nat) (fd : fd_state) (path : list byte)
  : outcome (Z * fd_state) :=
  match fuel with
  | O => OutOfFuel
  | S fuel' =>
      match read_header fd with
      | None => Undef
      | Some (bufer, fd1) =>
          if name_matches bufer path
          then if Byte.eqb (hdr_typeflag bufer) REGTYPE
                  || Byte.eqb (hdr_typeflag bufer) AREGTYPE
               then Ret (1, fd1)
               else Ret (0, fd1)
          else
            match check_end (lseek_cur fd1 (next_header bufer)) with
            | (None, _) => Undef
            | (Some true, fd3) => Ret (0, fd3)
            | (Some false, fd3) => is_file fuel' fd3 path
            end
      end
  end.

Fixpoint is_symlink (fuel : nat) (fd : fd_state) (path : list byte)
  : outcome (Z * fd_state) :=
  match fuel with
  | O => OutOfFuel
  | S fuel' =>
      match read_header fd with
      | None => Undef
      | Some (bufer, fd1) =>
          if name_matches bufer path
          then if Byte.eqb (hdr_typeflag bufer) SYMTYPE
               then Ret (1, fd1)
               else Ret (0, fd1)
          else
            match check_end (lseek_cur fd1 (next_header bufer)) with
            | (None, _) => Undef
            | (Some true, fd3) => Ret (0, fd3)
            | (Some false, fd3) => is_symlink fuel' fd3 path
            end
      end
  end.

(** ** [read_symlink] and [read_file] (lines 631-749) *)

(** What a read call leaves behind: the value returned, the destination
    buffer, [*len], the descriptor, and (a ghost field, not in the C code)
    the number of symbolic links followed on the way. *)
Record read_result : Type := mkRead {
  rd_ret : Z;
  rd_dest : list byte;
  rd_len : Z;
  rd_fd : fd_state;
  rd_hops : nat
}.

Definition one_more_hop (r : outcome read_result) : outcome read_result :=
  match r with
  | Ret a => Ret (mkRead (rd_ret a) (rd_dest a) (rd_len a) (rd_fd a) (S (rd_hops a)))
  | Undef => Undef
  | OutOfFuel => OutOfFuel
  end.

(** [read(tar_fd, dest, count)]: the bytes delivered replace the start of
    [dest]. *)
Definition read_into (fd : fd_state) (dest : list byte) (count : Z)
  : list byte * fd_state :=
  let (bs, fd1) := read fd count in
  (bs ++ skipn (List.length bs) dest, fd1).

(** Lines 656-667 and, word for word, 727-738: the offset check and the copy,
    with the descriptor just behind the header [buf].  [size] is an
    [ssize_t], [offset] and [*len] are [size_t]; the comparisons and the
    subtractions are done without sign. *)
Definition read_content (buf : list byte) (fd1 : fd_state)
    (offset : Z) (dest : list byte) (len : Z) : read_result :=
  let size := TAR_INT (hdr_size buf) in
  if offset >? to_size_t size
  then mkRead (-2) dest len fd1 0
  else
    let fd2 := lseek_cur fd1 (to_long offset) in
    let len1 :=
      if to_size_t (size - offset) <? len then to_size_t (size - offset) else len in
    let (dest1, fd3) := read_into fd2 dest len1 in
    mkRead (to_long (to_size_t (to_size_t (size - offset) - len1))) dest1 len1 fd3 0.

Fixpoint read_symlink (fuel : nat) (fd : fd_state) (path : list byte)
    (offset : Z) (dest : list byte) (len : Z) : outcome read_result :=
  match fuel with
  | O => OutOfFuel
  | S fuel' =>
      match read_header fd with
      | None => Undef
      | Some (buf, fd1) =>
          if strstr (hdr_name buf) path
          then
            if Byte.eqb (hdr_typeflag buf) DIRTYPE
               || negb (Byte.eqb (hdr_typeflag buf) REGTYPE
                        || Byte.eqb (hdr_typeflag buf) AREGTYPE)
            then Ret (mkRead (-1) dest len fd1 0)
            else if Byte.eqb (hdr_typeflag buf) SYMTYPE
            then one_more_hop
                   (read_symlink fuel' fd1 (hdr_linkname buf) offset dest len)
            else Ret (read_content buf fd1 offset dest len)
          else
            match check_end (lseek_cur fd1 (next_header buf)) with
            | (None, _) => Undef
            | (Some true, fd3) => Ret (mkRead (-1) dest len fd3 0)
            | (Some false, fd3) => read_symlink fuel' fd3 path offset dest len
            end
      end
  end.

Fixpoint read_file (fuel : nat) (fd : fd_state) (path : list byte)
    (offset : Z) (dest : list byte) (len : Z) : outcome read_result :=
  match fuel with
  | O => OutOfFuel
  | S fuel' =>
      match read_header fd with
      | None => Undef
      | Some (buf, fd1) =>
          if name_matches buf path
          then
            if Byte.eqb (hdr_typeflag buf) DIRTYPE
            then Ret (mkRead (-1) dest len fd1 0)
            else if Byte.eqb (hdr_typeflag buf) SYMTYPE
            then one_more_hop
                   (read_symlink fuel' fd1 (hdr_linkname buf) offset dest len)
            else if negb (Byte.eqb (hdr_typeflag buf) REGTYPE
                          || Byte.eqb (hdr_typeflag buf) AREGTYPE)
            then Ret (mkRead (-1) dest len fd1 0)
            else Ret (read_content buf fd1 offset dest len)
          else
            match check_end (lseek_cur fd1 (next_header buf)) with
            | (None, _) => Undef
            | (Some true, fd3) => Ret (mkRead (-1) dest len fd3 0)
            | (Some false, fd3) => read_file fuel' fd3 path offset dest len
            end
      end
  end.

(** ** [list] (lines 527-611) *)

Definition SLASH : byte := x2f.

(** [strcat(name, "/")]: the terminator of the string at [name] becomes a
    slash and the byte behind it the new terminator. *)
Definition strcat_slash (name : list byte) : list byte :=
  firstn (strlen name) name ++ [SLASH; NUL] ++ skipn (strlen name + 2) name.

(** The [depth] loop: the index of the last slash of the name, 0 without one. *)
Fixpoint last_slash (i : Z) (s : list byte) (depth : Z) : Z :=
  match s with
  | [] => depth
  | c :: s' => last_slash (i + 1) s' (if Byte.eqb c SLASH then i else depth)
  end.

Definition name_depth (buf : list byte) : Z :=
  last_slash 0 (c_str (hdr_name buf)) 0.

Definition memcpy (dst src : list byte) (n : nat) : list byte :=
  firstn n src ++ skipn n dst.

(** [memcpy(entries[count], name, strlen(name))]; [None] when [entries] has no
    slot [count]. *)
Fixpoint store_entry (entries : list (list byte)) (count : nat) (name : list byte)
  : option (list (list byte)) :=
  match entries, count with
  | [], _ => None
  | e :: es, O => Some (memcpy e name (strlen name) :: es)
  | e :: es, S count' => option_map (cons e) (store_entry es count' name)
  end.

Record list_result : Type := mkList {
  ls_ret : Z;
  ls_entries : list (list byte);
  ls_no_entries : Z;
  ls_fd : fd_state
}.

(** The statements behind the loop: [*no_entries = count; return *no_entries]. *)
Definition list_finish (entries : list (list byte)) (count : Z) (fd : fd_state)
  : list_result :=
  let count := if count =? -1 then to_int (count + 1) else count in
  mkList (to_int (to_size_t count)) entries (to_size_t count) fd.

(** The loop of [list], entered with the values of [count] and [home]; the
    recursive call of line 556 starts again at offset 0 with fresh locals. *)
Fixpoint list_loop (fuel : nat) (fd : fd_state) (path : list byte)
    (entries : list (list byte)) (no_entries : Z) (count home : Z)
  : outcome list_result :=
  match fuel with
  | O => OutOfFuel
  | S fuel' =>
      match read_header fd with
      | None => Undef
      | Some (buf0, fd1) =>
          let buf :=
            if Byte.eqb (hdr_typeflag buf0) SYMTYPE then strcat_slash buf0 else buf0 in
          let next_iteration entries count home :=
            match check_end (lseek_cur fd1 (next_header buf)) with
            | (None, _) => Undef
            | (Some true, fd3) => Ret (list_finish entries count fd3)
            | (Some false, fd3) =>
                list_loop fuel' fd3 path entries no_entries count home
            end in
          let add_entry :=
            if to_size_t count <? no_entries
            then match store_entry entries (Z.to_nat count) (hdr_name buf) with
                 | None => Undef
                 | Some entries' => next_iteration entries' (to_int (count + 1)) home
                 end
            else next_iteration entries count home in
          if name_matches buf path
          then
            if Byte.eqb (hdr_typeflag buf) SYMTYPE && (count =? -1)
            then list_loop fuel' (lseek_set fd1 0) (hdr_linkname buf)
                           entries no_entries (-1) 0
            else
              let depth := name_depth buf in
              if count =? -1
              then next_iteration entries (to_int (count + 1)) depth
              else if depth >? home
              then if is_nul (nth (Z.to_nat (depth + 1)) (hdr_name buf) NUL)
                   then add_entry
                   else next_iteration entries count home
              else add_entry
          else next_iteration entries count home
      end
  end.

Definition list_ (fuel : nat) (fd : fd_state) (path : list byte)
    (entries : list (list byte)) (no_entries : Z) : outcome list_result :=
  list_loop fuel (lseek_set fd 0) path entries no_entries (-1) 0.

(** * The vocabulary of the properties *)

(** The name of an entry: the string held by the 100-byte field [name]. *)
Definition name_field (buf : list byte) : list byte := c_str (firstn 100 buf).

(** The header's name has [path] as a prefix. *)
Definition has_prefix (path buf : list byte) : bool :=
  prefixb (c_str path) (name_field buf).

(** The walk of the archive.  All the functions share one loop: read the
    block at the read position as a header, step over its content by
    [next_header], ask [check_end].  [walk fd es fd_end] lists what that
    loop visits from [fd] when nothing stops it early: each header with the
    descriptor just behind it (at the start of its content), and the
    descriptor [fd_end] at which [check_end] answers that the archive ends.
    The block at the read position is always visited, as in the code. *)
Definition entry : Type := (list byte * fd_state)%type.

Inductive walk : fd_state -> list entry -> fd_state -> Prop :=
| walk_last fd buf fd1 fd3 :
    read_header fd = Some (buf, fd1) ->
    check_end (lseek_cur fd1 (next_header buf)) = (Some true, fd3) ->
    walk fd [(buf, fd1)] fd3
| walk_next fd buf fd1 fd3 es fd_end :
    read_header fd = Some (buf, fd1) ->
    check_end (lseek_cur fd1 (next_header buf)) = (Some false, fd3) ->
    walk fd3 es fd_end ->
    walk fd ((buf, fd1) :: es) fd_end.

(** The walk computed, for the archives of the examples. *)
Fixpoint walk_of (fuel : nat) (fd : fd_state) : option (list entry * fd_state) :=
  match fuel with
  | O => None
  | S fuel' =>
      match read_header fd with
      | None => None
      | Some (buf, fd1) =>
          match check_end (lseek_cur fd1 (next_header buf)) with
          | (None, _) => None
          | (Some true, fd3) => Some ([(buf, fd1)], fd3)
          | (Some false, fd3) =>
              match walk_of fuel' fd3 with
              | Some (es, fd_end) => Some ((buf, fd1) :: es, fd_end)
              | None => None
              end
          end
      end
  end.

(** The entry a lookup of [path] selects: the first one, in the order of the
    walk, whose name has [path] as a prefix. *)
Definition first_match (path : list byte) (es : list entry) : option entry :=
  find (fun e => has_prefix path (fst e)) es.

(** The entry [read_symlink] selects for a link target: the first one whose
    name contains the target. *)
Definition first_containing (target : list byte) (es : list entry) : option entry :=
  find (fun e => strstr (hdr_name (fst e)) target) es.

(** What [read_file] does with a matched header that is not a link. *)
Definition read_entry (h : list byte) (fd1 : fd_state)
    (offset : Z) (dest : list byte) (len : Z) : read_result :=
  if Byte.eqb (hdr_typeflag h) DIRTYPE
  then mkRead (-1) dest len fd1 0
  else if negb (Byte.eqb (hdr_typeflag h) REGTYPE || Byte.eqb (hdr_typeflag h) AREGTYPE)
  then mkRead (-1) dest len fd1 0
  else read_content h fd1 offset dest len.

(** The type flag is that of a regular file. *)
Definition is_regular (h : list byte) : bool :=
  Byte.eqb (hdr_typeflag h) REGTYPE || Byte.eqb (hdr_typeflag h) AREGTYPE.

(** The [count] bytes of [l] from index [from] on. *)
Definition slice (l : list byte) (from count : Z) : list byte :=
  firstn (Z.to_nat count) (skipn (Z.to_nat from) l).

(** The content of an entry: the [size] bytes behind its header. *)
Definition content_of (e : entry) : list byte :=
  slice (fd_data (snd e)) (fd_pos (snd e)) (TAR_INT (hdr_size (fst e))).

(** The bytes a read call has put into the destination. *)
Definition delivered (r : read_result) : list byte :=
  firstn (Z.to_nat (rd_len r)) (rd_dest r).

(** The three tests of [check_archive] on one header, in their order: the
    code returned for the first that fails. *)
Definition validate (buf : list byte) : option Z :=
  if negb (strncmp (hdr_magic buf) TMAGIC (TMAGLEN - 1) =? 0) then Some (-1)
  else if negb (strncmp (hdr_version buf) TVERSION TVERSLEN =? 0) then Some (-2)
  else if negb (TAR_INT (hdr_chksum buf) =? header_checksum buf) then Some (-3)
  else None.

(** The first header of the walk that fails one of the tests. *)
Definition first_invalid (es : list entry) : option entry :=
  find (fun e => match validate (fst e) with Some _ => true | None => false end) es.

Definition error_code (buf : list byte) : Z :=
  match validate buf with
  | Some c => c
  | None => 0
  end.

(** What a call has returned, without the descriptor. *)
Definition answer (o : outcome read_result) : option (Z * list byte * Z) :=
  match o with
  | Ret r => Some (rd_ret r, rd_dest r, rd_len r)
  | _ => None
  end.

(** What [list] has returned and written, without the descriptor. *)
Definition listing (o : outcome list_result) : option (Z * list (list byte) * Z) :=
  match o with
  | Ret r => Some (ls_ret r, ls_entries r, ls_no_entries r)
  | _ => None
  end.

(** * Archives for the examples

    A header block with the fields the library reads, the checksum filled
    in the way [check_archive] recomputes it, and the archives that the
    witnesses and the counterexamples run on. *)

Definition zeros (n : nat) : list byte := repeat NUL n.

Definition pad_to (n : nat) (bs : list byte) : list byte :=
  bs ++ zeros (n - List.length bs).

Definition byte_of_Z (z : Z) : byte :=
  match Byte.of_N (Z.to_N z) with
  | Some b => b
  | None => NUL
  end.

Fixpoint octal_field (width : nat) (n : Z) : list byte :=
  match width with
  | O => []
  | S w => octal_field w (n / 8) ++ [byte_of_Z (48 + n mod 8)]
  end.

Definition raw_header (name : string) (typeflag : byte) (size : Z)
    (linkname : string) (chksum : list byte) : list byte :=
  pad_to 100 (list_byte_of_string name)
  ++ zeros 24
  ++ octal_field 11 size ++ [NUL]
  ++ zeros 12
  ++ chksum
  ++ [typeflag]
  ++ pad_to 100 (list_byte_of_string linkname)
  ++ list_byte_of_string "ustar" ++ [NUL]
  ++ list_byte_of_string "00"
  ++ zeros 247.

Definition mk_header (name : string) (typeflag : byte) (size : Z)
    (linkname : string) : list byte :=
  raw_header name typeflag size linkname
    (octal_field 6
       (header_checksum (raw_header name typeflag size linkname (zeros 8)))
     ++ [NUL; x20]).

Definition blocks (n : nat) (bs : list byte) : list byte :=
  pad_to (n * 512) bs.

Definition end_marker : list byte := zeros 1024.

Definition at_start (data : list byte) : fd_state := mkFd data 0.

Definition path_of (s : string) : list byte := list_byte_of_string s.

(** The archive of the comment above [list]: a directory with two files, a
    sub-directory that holds a file, and an empty sub-directory. *)
Definition dir_archive : list byte :=
  mk_header "dir/" DIRTYPE 0 ""
  ++ mk_header "dir/a" REGTYPE 11 "" ++ blocks 1 (list_byte_of_string "hello world")
  ++ mk_header "dir/b" REGTYPE 0 ""
  ++ mk_header "dir/c/" DIRTYPE 0 ""
  ++ mk_header "dir/c/d" REGTYPE 0 ""
  ++ mk_header "dir/e/" DIRTYPE 0 ""
  ++ end_marker.

(** Two entries stored under the same path, a directory first and a regular
    file second. *)
Definition duplicate_archive : list byte :=
  mk_header "x" DIRTYPE 0 ""
  ++ mk_header "x" REGTYPE 0 ""
  ++ end_marker.

(** The walk of an archive from its start. *)
Definition walked (data : list byte) : list entry * fd_state :=
  match walk_of 64 (at_start data) with
  | Some w => w
  | None => ([], at_start data)
  end.

(** The entry "dir/a" of [dir_archive]. *)
Definition dir_a_entry : entry :=
  nth 1 (fst (walked dir_archive)) ([], at_start []).


(** Two links that point at each other, and a file. *)
Definition cycle_l1 : list byte := mk_header "l1" SYMTYPE 0 "l2".

Definition cycle_l2 : list byte := mk_header "l2" SYMTYPE 0 "l1".

Definition cycle_f : list byte := mk_header "f" REGTYPE 0 "".

Definition cyclic_archive : list byte :=
  cycle_l1 ++ cycle_l2 ++ cycle_f ++ end_marker.

(** An archive on which resolution does not return.  The size of "b",
    4294966272 bytes, makes [next_header] wrap to -1024, which sends the
    walker back to the header of "a". *)
Definition loop_link : list byte := mk_header "l" SYMTYPE 0 "zzz".

Definition loop_a : list byte := mk_header "a" REGTYPE 0 "".

Definition loop_b : list byte := mk_header "b" REGTYPE (2 ^ 32 - 1024) "".

Definition looping_archive : list byte :=
  loop_link ++ loop_a ++ loop_b ++ zeros 512.

(** A link to a link to a file that holds "hi". *)
Definition chain_archive : list byte :=
  mk_header "l1" SYMTYPE 0 "l2"
  ++ mk_header "l2" SYMTYPE 0 "file"
  ++ mk_header "file" REGTYPE 2 "" ++ blocks 1 (list_byte_of_string "hi")
  ++ end_marker.

(** The target of a link is looked for from the link onwards only: a link to
    an entry stored in front of it is answered with -1 as well. *)
Definition backward_archive : list byte :=
  mk_header "file" REGTYPE 2 "" ++ blocks 1 (list_byte_of_string "hi")
  ++ mk_header "l" SYMTYPE 0 "file"
  ++ end_marker ++ zeros 512.

(** A header and a content block whose bytes, read as signed [char]s, add up
    to zero: the header sums to 1669, the content to 13 * -128 - 5. *)
Definition balanced_b : list byte := mk_header "b" REGTYPE 40 "".

Definition balanced_content : list byte := repeat x80 13 ++ [xfb] ++ zeros 26.

Definition balanced_archive : list byte :=
  mk_header "a" REGTYPE 0 ""
  ++ balanced_b ++ blocks 1 balanced_content
  ++ end_marker.

(** A header whose name fills the 100 bytes of the field, without a
    terminator, and whose mode field, the bytes behind the name, holds
    "0000644"; the checksum is that of the block.  [long_path] is the name
    followed by the mode. *)
Definition long_name : list byte := repeat x6e 100.

Definition long_name_header : list byte :=
  let h := mk_header (string_of_list_byte long_name) REGTYPE 0 "" in
  let raw := firstn 100 h ++ list_byte_of_string "0000644" ++ skipn 107 h in
  firstn 148 raw ++ octal_field 6 (header_checksum raw) ++ [NUL; x20] ++ skipn 156 raw.

Definition long_name_archive : list byte := long_name_header ++ end_marker.

Definition long_path : list byte := long_name ++ list_byte_of_string "0000644".

(** Two regular files, the name of the first a prefix of the name of the
    second; and a directory that holds a directory that holds one. *)
Definition prefix_archive : list byte :=
  mk_header "f" REGTYPE 0 ""
  ++ mk_header "fg" REGTYPE 0 ""
  ++ end_marker.

Definition nested_archive : list byte :=
  mk_header "dir/" DIRTYPE 0 ""
  ++ mk_header "dir/c/" DIRTYPE 0 ""
  ++ mk_header "dir/c/f/" DIRTYPE 0 ""
  ++ mk_header "dir/c/f/g" REGTYPE 0 ""
  ++ end_marker.

(** [dir_archive] with one digit of the checksum of "dir/b" changed. *)
Definition corrupt_archive : list byte :=
  firstn (1536 + 150) dir_archive ++ [x37] ++ skipn (1536 + 151) dir_archive.

(** The read position is at a block boundary. *)
Definition aligned (fd : fd_state) : Prop :=
  0 <= fd_pos fd /\ fd_pos fd mod 512 = 0.




(** The entries of [chain_archive] and the walk from behind its link "l2". *)
Definition chain_l2_entry : entry :=
  nth 1 (fst (walked chain_archive)) ([], at_start []).

Definition chain_file_entry : entry :=
  nth 2 (fst (walked chain_archive)) ([], at_start []).

(** The sum of the bytes of a block, read as [char]s. *)
Definition sum_chars (bs : list byte) : Z :=
  fold_right (fun b s => schar b + s) 0 bs.

(** The header as [list] sees it: a slash appended to the name of a link. *)
Definition list_buffer (buf0 : list byte) : list byte :=
  if Byte.eqb (hdr_typeflag buf0) SYMTYPE then strcat_slash buf0 else buf0.

(** What one iteration of [list] does with the header it has read: follow
    the link, set [home] (the first match), copy the name, or nothing. *)
Inductive list_step : Type :=
| ListRecurse
| ListHome (depth : Z)
| ListAdd
| ListSkip.

Definition list_decide (path buf : list byte) (no_entries count home : Z) : list_step :=
  if name_matches buf path
  then
    if Byte.eqb (hdr_typeflag buf) SYMTYPE && (count =? -1)
    then ListRecurse
    else if count =? -1
    then ListHome (name_depth buf)
    else if name_depth buf >? home
    then if is_nul (nth (Z.to_nat (name_depth buf + 1)) (hdr_name buf) NUL)
         then if to_size_t count <? no_entries then ListAdd else ListSkip
         else ListSkip
    else if to_size_t count <? no_entries then ListAdd else ListSkip
  else ListSkip.

(** The end of an iteration of [list]: [check_end], then the next one. *)
Definition list_continue (fuel : nat) (fd1 : fd_state) (buf path : list byte)
    (entries : list (list byte)) (no_entries count home : Z) : outcome list_result :=
  match check_end (lseek_cur fd1 (next_header buf)) with
  | (None, _) => Undef
  | (Some true, fd3) => Ret (list_finish entries count fd3)
  | (Some false, fd3) => list_loop fuel fd3 path entries no_entries count home
  end.

(** A name is shown below the first match, whose last slash is at [home],
    when its own last slash is no further to the right, or when nothing
    follows its last slash. *)
Definition shown (home : Z) (buf : list byte) : bool :=
  if name_depth buf >? home
  then is_nul (nth (Z.to_nat (name_depth buf + 1)) (hdr_name buf) NUL)
  else true.

(** The entries that [list] reports for [path]: behind the first entry
    whose name has [path] as a prefix, the entries with that prefix that
    are shown. *)
Fixpoint listed (path : list byte) (es : list entry) : list entry :=
  match es with
  | [] => []
  | e :: es' =>
      if has_prefix path (fst e)
      then filter (fun e' => has_prefix path (fst e')
                             && shown (name_depth (fst e)) (fst e')) es'
      else listed path es'
  end.

(** The buffers of [entries] with the names copied into the first of them. *)
Fixpoint fill (entries names : list (list byte)) : list (list byte) :=
  match entries, names with
  | e :: entries', name :: names' =>
      memcpy e name (strlen name) :: fill entries' names'
  | _, _ => entries
  end.

(** A link that points at itself. *)
Definition self_link_archive : list byte :=
  mk_header "l" SYMTYPE 0 "l" ++ end_marker.

(** The names that [list] copies for [path] with room for [no_entries]. *)
Definition reported (path : list byte) (es : list entry) (no_entries : Z)
  : list (list byte) :=
  map fst (firstn (Z.to_nat no_entries) (listed path es)).

(** The loop of [list] behind the first match, as a function of the headers
    the walk visits: the array and the count after them. *)
Fixpoint list_fold (path : list byte) (no_entries home : Z) (es : list entry)
    (entries : list (list byte)) (count : Z) : list (list byte) * Z :=
  match es with
  | [] => (entries, count)
  | e :: es' =>
      if has_prefix path (fst e) && shown home (fst e) && (count <? no_entries)
      then match store_entry entries (Z.to_nat count) (hdr_name (fst e)) with
           | Some entries' => list_fold path no_entries home es' entries' (count + 1)
           | None => (entries, count)
           end
      else list_fold path no_entries home es' entries count
  end.

(** ** The first revision of [check_archive] and [exists] (lines 18-141)

    The same two loops before [check_end] and [next_header] were factored
    out; [next] is a [long] there. *)

(** Lines 60-65 and 115-120. *)
Definition next_long (buf : list byte) : Z :=
  let next := to_long (Z.quot (TAR_INT (hdr_size buf)) 512) in
  let next :=
    if negb (Z.rem (TAR_INT (hdr_size buf)) 512 =? 0)
    then to_long (next + 1)
    else next in
  to_long (next * 512).

Fixpoint check_archive_rev1_loop (fuel : nat) (fd : fd_state) (count : Z)
  : outcome (Z * fd_state) :=
  match fuel with
  | O => OutOfFuel
  | S fuel' =>
      match read_header fd with
      | None => Undef
      | Some (buf, fd1) =>
          if negb (strncmp (hdr_magic buf) TMAGIC (TMAGLEN - 1) =? 0)
          then Ret (-1, fd1)
          else if negb (strncmp (hdr_version buf) TVERSION TVERSLEN =? 0)
          then Ret (-2, fd1)
          else if negb (TAR_INT (hdr_chksum buf) =? header_checksum buf)
          then Ret (-3, fd1)
          else
            let (header_next_header, fd3) :=
              read (lseek_cur fd1 (next_long buf)) 1024 in
            let fd4 := lseek_cur fd3 (-1024) in
            if (List.length header_next_header =? 1024)%nat
            then if add_chars header_next_header =? 0
                 then Ret (to_int (count + 1), fd4)
                 else check_archive_rev1_loop fuel' fd4 (to_int (count + 1))
            else Undef
      end
  end.

Definition check_archive_rev1 (fuel : nat) (fd : fd_state) : outcome (Z * fd_state) :=
  check_archive_rev1_loop fuel fd 0.

Fixpoint exists_rev1 (fuel : nat) (fd : fd_state) (path : list byte)
  : outcome (Z * fd_state) :=
  match fuel with
  | O => OutOfFuel
  | S fuel' =>
      match read_header fd with
      | None => Undef
      | Some (buf, fd1) =>
          if name_matches buf path
          then Ret (1, fd1)
          else
            let (header_next_header, fd3) :=
              read (lseek_cur fd1 (next_long buf)) 1024 in
            let fd4 := lseek_cur fd3 (-1024) in
            if (List.length header_next_header =? 1024)%nat
            then if add_chars header_next_header =? 0
                 then Ret (0, fd4)
                 else exists_rev1 fuel' fd4 path
            else Undef
      end
  end.

(** * Properties *)

(** ** Integers and characters *)

Lemma to_int_small (x : Z) : - 2 ^ 31 <= x < 2 ^ 31 -> to_int x = x.
Proof.
  intros H. unfold to_int, wrap_signed.
  change (2 ^ (32 - 1)) with (2 ^ 31).
  rewrite Z.mod_small; lia.
Qed.

Lemma to_long_small (x : Z) : - 2 ^ 63 <= x < 2 ^ 63 -> to_long x = x.
Proof.
  intros H. unfold to_long, wrap_signed.
  change (2 ^ (64 - 1)) with (2 ^ 63).
  rewrite Z.mod_small; lia.
Qed.

Lemma to_size_t_small (x : Z) : 0 <= x < 2 ^ 64 -> to_size_t x = x.
Proof. intros H. unfold to_size_t. now apply Z.mod_small. Qed.

Lemma uchar_range (b : byte) : 0 <= uchar b <= 255.
Proof.
  unfold uchar. pose proof (Byte.to_N_bounded b) as H. lia.
Qed.

Lemma uchar_inj (x y : byte) : uchar x = uchar y -> x = y.
Proof.
  unfold uchar. intros H. apply N2Z.inj in H.
  pose proof (Byte.of_to_N x) as Hx. rewrite H, Byte.of_to_N in Hx.
  congruence.
Qed.

Lemma schar_range (b : byte) : -128 <= schar b <= 127.
Proof.
  unfold schar. pose proof (uchar_range b).
  destruct (uchar b <? 128) eqn:E; [apply Z.ltb_lt in E | apply Z.ltb_ge in E]; lia.
Qed.

Lemma schar_zero (b : byte) : schar b = 0 <-> b = NUL.
Proof.
  split.
  - unfold schar. pose proof (uchar_range b). intros E.
    destruct (uchar b <? 128); [| lia].
    apply uchar_inj. exact E.
  - intros ->. reflexivity.
Qed.

Lemma eqb_refl (b : byte) : Byte.eqb b b = true.
Proof. now apply Byte.byte_dec_lb. Qed.

Lemma eqb_sym (x y : byte) : Byte.eqb x y = Byte.eqb y x.
Proof.
  destruct (Byte.eqb x y) eqn:E.
  - apply Byte.byte_dec_bl in E. subst. symmetry. apply eqb_refl.
  - destruct (Byte.eqb y x) eqn:E'; [| reflexivity].
    apply Byte.byte_dec_bl in E'. subst. now rewrite eqb_refl in E.
Qed.

(** ** Strings: what [strncmp(name, path, strlen(path))] decides *)

Lemma c_str_no_nul (p : list byte) : Forall (fun b => is_nul b = false) (c_str p).
Proof.
  induction p as [| b p IH]; simpl; [constructor |].
  destruct (is_nul b) eqn:E; constructor; assumption.
Qed.

Lemma strncmp_prefixb (b a : list byte) :
  (strncmp a b (strlen b) =? 0) = prefixb (c_str b) a.
Proof.
  unfold strlen. revert a.
  induction b as [| y b IH]; intros a; simpl; [reflexivity |].
  destruct (is_nul y) eqn:Ey; simpl; [reflexivity |].
  destruct a as [| x a]; simpl.
  - destruct (Byte.eqb NUL y) eqn:E.
    + apply Byte.byte_dec_bl in E. subst y. discriminate.
    + apply Z.eqb_neq. intros H.
      assert (uchar NUL = uchar y) as H' by (unfold uchar in *; simpl in *; lia).
      apply uchar_inj in H'. subst y. discriminate.
  - rewrite (eqb_sym y x).
    destruct (Byte.eqb x y) eqn:E; simpl.
    + apply Byte.byte_dec_bl in E. subst y. rewrite Ey. apply IH.
    + apply Z.eqb_neq. intros H.
      assert (uchar x = uchar y) as H' by (unfold uchar in *; simpl in *; lia).
      apply uchar_inj in H'. subst y. now rewrite eqb_refl in E.
Qed.

Lemma prefixb_c_str_firstn (p l : list byte) (n : nat) :
  Forall (fun b => is_nul b = false) p ->
  (List.length p <= n)%nat ->
  prefixb p l = prefixb p (c_str (firstn n l)).
Proof.
  intros Hp. revert l n.
  induction Hp as [| x p Hx Hp IH]; intros l n Hn; [reflexivity |].
  simpl in Hn. destruct n as [| n]; [lia |].
  destruct l as [| y l]; simpl; [reflexivity |].
  destruct (Byte.eqb x y) eqn:E; simpl.
  - apply Byte.byte_dec_bl in E. subst y. rewrite Hx. simpl.
    rewrite eqb_refl. simpl. apply IH. lia.
  - destruct (is_nul y); simpl; [reflexivity |]. now rewrite E.
Qed.

Lemma name_matches_has_prefix (buf path : list byte) :
  (strlen path <= 100)%nat ->
  name_matches buf path = has_prefix path buf.
Proof.
  intros H. unfold name_matches, has_prefix, name_field, hdr_name.
  rewrite strncmp_prefixb.
  apply prefixb_c_str_firstn; [apply c_str_no_nul | exact H].
Qed.

Lemma octal_digits_nonneg (p : list byte) :
  forall acc, 0 <= acc -> 0 <= octal_digits acc p.
Proof.
  induction p as [| b p IH]; intros acc Hacc; simpl; [exact Hacc |].
  unfold octal_digit.
  destruct ((48 <=? uchar b) && (uchar b <=? 55)) eqn:E; [| exact Hacc].
  apply andb_prop in E. destruct E as [E1 E2].
  apply Z.leb_le in E1. apply IH. lia.
Qed.

Lemma TAR_INT_range (p : list byte) : 0 <= TAR_INT p <= LONG_MAX.
Proof.
  unfold TAR_INT.
  pose proof (octal_digits_nonneg (skip_spaces p) 0 (Z.le_refl 0)) as H.
  assert (0 <= LONG_MAX) as H' by (unfold LONG_MAX; lia).
  lia.
Qed.

(** ** The walk of the archive *)

Lemma walk_of_sound (fuel : nat) :
  forall fd es fd_end, walk_of fuel fd = Some (es, fd_end) -> walk fd es fd_end.
Proof.
  induction fuel as [| fuel IH]; intros fd es fd_end H; [discriminate |].
  cbn [walk_of] in H.
  destruct (read_header fd) as [[buf fd1] |] eqn:Hr; [| discriminate].
  destruct (check_end (lseek_cur fd1 (next_header buf))) as [[[|] |] fd3] eqn:Hc;
    [| | discriminate].
  - injection H as <- <-. eapply walk_last; eassumption.
  - destruct (walk_of fuel fd3) as [[es' fd_end'] |] eqn:Hw; [| discriminate].
    injection H as <- <-. eapply walk_next; eauto.
Qed.

Lemma walk_nonempty fd es fd_end : walk fd es fd_end -> es <> [].
Proof. destruct 1; discriminate. Qed.

Section Lookup.

Variable path : list byte.
Hypothesis path_fits : (strlen path <= 100)%nat.

(** One proof for the five lookup loops of the source, which differ in what
    they do with the matched header only: induction on the walk, the loop
    [f] unfolded once, [on_match] for the header that matches. *)
Ltac scan_walk f on_match :=
  induction 1 as [fd buf fd1 fd3 Hread Hend
                 | fd buf fd1 fd3 es fd_end Hread Hend Hwalk IH];
  intros [| fuel] Hfuel; simpl in Hfuel; try lia;
  cbn [f]; rewrite Hread, name_matches_has_prefix by exact path_fits;
  unfold first_match; cbn [find fst];
  (destruct (has_prefix path buf); [on_match buf | rewrite Hend]);
  try reflexivity;
  apply IH; lia.

Lemma exists_walk fd es fd_end :
  walk fd es fd_end ->
  forall fuel, (List.length es <= fuel)%nat ->
  exists_ fuel fd path =
  Ret (match first_match path es with
       | Some (_, fd1) => (1, fd1)
       | None => (0, fd_end)
       end).
Proof. scan_walk exists_ ltac:(fun _ => reflexivity). Qed.

Lemma is_dir_walk fd es fd_end :
  walk fd es fd_end ->
  forall fuel, (List.length es <= fuel)%nat ->
  is_dir fuel fd path =
  Ret (match first_match path es with
       | Some (h, fd1) =>
           (if Byte.eqb (hdr_typeflag h) DIRTYPE then 1 else 0, fd1)
       | None => (0, fd_end)
       end).
Proof.
  scan_walk is_dir
    ltac:(fun b => now destruct (Byte.eqb (hdr_typeflag b) DIRTYPE)).
Qed.

Lemma is_file_walk fd es fd_end :
  walk fd es fd_end ->
  forall fuel, (List.length es <= fuel)%nat ->
  is_file fuel fd path =
  Ret (match first_match path es with
       | Some (h, fd1) =>
           (if Byte.eqb (hdr_typeflag h) REGTYPE || Byte.eqb (hdr_typeflag h) AREGTYPE
            then 1 else 0, fd1)
       | None => (0, fd_end)
       end).
Proof.
  scan_walk is_file
    ltac:(fun b => now destruct (Byte.eqb (hdr_typeflag b) REGTYPE
                                 || Byte.eqb (hdr_typeflag b) AREGTYPE)).
Qed.

Lemma is_symlink_walk fd es fd_end :
  walk fd es fd_end ->
  forall fuel, (List.length es <= fuel)%nat ->
  is_symlink fuel fd path =
  Ret (match first_match path es with
       | Some (h, fd1) =>
           (if Byte.eqb (hdr_typeflag h) SYMTYPE then 1 else 0, fd1)
       | None => (0, fd_end)
       end).
Proof.
  scan_walk is_symlink
    ltac:(fun b => now destruct (Byte.eqb (hdr_typeflag b) SYMTYPE)).
Qed.

Lemma read_file_walk fd es fd_end offset dest len :
  walk fd es fd_end ->
  forall fuel, (List.length es <= fuel)%nat ->
  match first_match path es with
  | Some (h, fd1) =>
      hdr_typeflag h <> SYMTYPE ->
      read_file fuel fd path offset dest len = Ret (read_entry h fd1 offset dest len)
  | None =>
      read_file fuel fd path offset dest len = Ret (mkRead (-1) dest len fd_end 0)
  end.
Proof.
  scan_walk read_file
    ltac:(fun b =>
            intros Hsym; unfold read_entry;
            destruct (Byte.eqb (hdr_typeflag b) DIRTYPE); [reflexivity |];
            destruct (Byte.eqb (hdr_typeflag b) SYMTYPE) eqn:E;
            [apply Byte.byte_dec_bl in E; contradiction |];
            now destruct (negb (Byte.eqb (hdr_typeflag b) REGTYPE
                                || Byte.eqb (hdr_typeflag b) AREGTYPE))).
Qed.

End Lookup.

(** ** Lookup: the first match wins *)

Lemma first_match_none (path : list byte) (es : list entry) :
  first_match path es = None <->
  Forall (fun e => has_prefix path (fst e) = false) es.
Proof.
  unfold first_match. induction es as [| e es IH]; simpl.
  - split; [constructor | reflexivity].
  - destruct (has_prefix path (fst e)) eqn:E.
    + split; [discriminate |]. intros H. inversion H; congruence.
    + rewrite IH. split; [now constructor |]. intros H. now inversion H.
Qed.

(** X18.  Along the walk of the loops themselves, that is up to the first
    place at which [check_end] answers with the end of the archive, and for
    a path of at most 100 bytes, [exists], [is_dir], [is_file],
    [is_symlink] and [read_file] all decide on the first header visited
    whose name has the path as a prefix (so the first of two entries stored
    under one path wins); they answer 0 (for [read_file]: -1, nothing
    found) when no header visited matches, and only then does [exists]
    answer 0. *)
Theorem lookup_selects_first_match fd es fd_end path fuel :
  walk fd es fd_end ->
  (strlen path <= 100)%nat ->
  (List.length es <= fuel)%nat ->
  exists_ fuel fd path =
    Ret (match first_match path es with
         | Some (_, fd1) => (1, fd1)
         | None => (0, fd_end)
         end)
  /\ is_dir fuel fd path =
    Ret (match first_match path es with
         | Some (h, fd1) => (if Byte.eqb (hdr_typeflag h) DIRTYPE then 1 else 0, fd1)
         | None => (0, fd_end)
         end)
  /\ is_file fuel fd path =
    Ret (match first_match path es with
         | Some (h, fd1) =>
             (if Byte.eqb (hdr_typeflag h) REGTYPE || Byte.eqb (hdr_typeflag h) AREGTYPE
              then 1 else 0, fd1)
         | None => (0, fd_end)
         end)
  /\ is_symlink fuel fd path =
    Ret (match first_match path es with
         | Some (h, fd1) => (if Byte.eqb (hdr_typeflag h) SYMTYPE then 1 else 0, fd1)
         | None => (0, fd_end)
         end)
  /\ (forall offset dest len,
        match first_match path es with
        | Some (h, fd1) =>
            hdr_typeflag h <> SYMTYPE ->
            read_file fuel fd path offset dest len =
            Ret (read_entry h fd1 offset dest len)
        | None =>
            read_file fuel fd path offset dest len =
            Ret (mkRead (-1) dest len fd_end 0)
        end)
  /\ (first_match path es = None <->
      Forall (fun e => has_prefix path (fst e) = false) es).
Proof.
  intros Hwalk Hpath Hfuel.
  split; [now apply exists_walk |].
  split; [now apply is_dir_walk |].
  split; [now apply is_file_walk |].
  split; [now apply is_symlink_walk |].
  split; [intros; now apply read_file_walk |].
  apply first_match_none.
Qed.

Lemma lookup_selects_first_match_witness :
  (exists fd', is_dir 2 (at_start duplicate_archive) (path_of "x") = Ret (1, fd'))
  /\ (exists fd', is_file 2 (at_start duplicate_archive) (path_of "x") = Ret (0, fd')).
Proof.
  assert (walk (at_start duplicate_archive)
               (fst (walked duplicate_archive)) (snd (walked duplicate_archive))) as Hw.
  { apply (walk_of_sound 64). vm_compute. reflexivity. }
  assert (strlen (path_of "x") <= 100)%nat as Hp by (vm_compute; lia).
  assert (List.length (fst (walked duplicate_archive)) <= 2)%nat as Hf
      by (vm_compute; lia).
  destruct (lookup_selects_first_match _ _ _ _ _ Hw Hp Hf)
    as (_ & Hdir & Hfile & _).
  split.
  - eexists. rewrite Hdir. vm_compute. reflexivity.
  - eexists. rewrite Hfile. vm_compute. reflexivity.
Defined.

(** ** Reading the content of a regular file *)

Lemma is_regular_read_entry h fd1 offset dest len :
  is_regular h = true ->
  hdr_typeflag h <> SYMTYPE
  /\ read_entry h fd1 offset dest len = read_content h fd1 offset dest len.
Proof.
  unfold is_regular, read_entry. intros H. rewrite H.
  apply orb_true_iff in H.
  destruct H as [H | H]; apply Byte.byte_dec_bl in H; rewrite H;
    (split; [discriminate | reflexivity]).
Qed.

Lemma read_content_too_far h fd1 offset dest len :
  TAR_INT (hdr_size h) < offset ->
  read_content h fd1 offset dest len = mkRead (-2) dest len fd1 0.
Proof.
  intros H. unfold read_content.
  pose proof (TAR_INT_range (hdr_size h)) as Hs. unfold LONG_MAX in Hs.
  rewrite to_size_t_small by lia.
  destruct (offset >? TAR_INT (hdr_size h)) eqn:E; [reflexivity |].
  rewrite Z.gtb_ltb in E. apply Z.ltb_ge in E. lia.
Qed.

Lemma slice_slice (l : list byte) (p s o w : Z) :
  0 <= p -> 0 <= o -> 0 <= w -> o + w <= s ->
  slice (slice l p s) o w = slice l (p + o) w.
Proof.
  intros Hp Ho Hw Hs. unfold slice.
  rewrite skipn_firstn_comm, firstn_firstn, skipn_skipn.
  f_equal; [lia |]. f_equal. lia.
Qed.

Lemma slice_length (l : list byte) (p w : Z) :
  0 <= p -> 0 <= w -> p + w <= Z.of_nat (List.length l) ->
  List.length (slice l p w) = Z.to_nat w.
Proof.
  intros Hp Hw H. unfold slice.
  rewrite length_firstn, length_skipn. lia.
Qed.

Lemma read_in_range (fd : fd_state) (count : Z) :
  0 <= fd_pos fd -> 0 <= count ->
  fd_pos fd + count <= Z.of_nat (List.length (fd_data fd)) ->
  read fd count =
  (slice (fd_data fd) (fd_pos fd) count, mkFd (fd_data fd) (fd_pos fd + count)).
Proof.
  intros Hp Hc H. unfold read.
  rewrite Z.min_l by lia. fold (slice (fd_data fd) (fd_pos fd) count).
  rewrite slice_length by assumption.
  now rewrite Z2Nat.id by assumption.
Qed.

Lemma read_content_spec h fd1 offset dest len :
  0 <= fd_pos fd1 ->
  fd_pos fd1 + TAR_INT (hdr_size h) <= Z.of_nat (List.length (fd_data fd1)) ->
  0 <= offset <= TAR_INT (hdr_size h) ->
  0 <= len < 2 ^ 64 ->
  read_content h fd1 offset dest len =
  mkRead (TAR_INT (hdr_size h) - offset - Z.min len (TAR_INT (hdr_size h) - offset))
         (slice (content_of (h, fd1)) offset (Z.min len (TAR_INT (hdr_size h) - offset))
          ++ skipn (Z.to_nat (Z.min len (TAR_INT (hdr_size h) - offset))) dest)
         (Z.min len (TAR_INT (hdr_size h) - offset))
         (mkFd (fd_data fd1)
               (fd_pos fd1 + offset + Z.min len (TAR_INT (hdr_size h) - offset)))
         0.
Proof.
  intros Hpos Havail Hoff Hlen.
  pose proof (TAR_INT_range (hdr_size h)) as Hs. unfold LONG_MAX in Hs.
  set (s := TAR_INT (hdr_size h)) in *.
  unfold read_content. fold s.
  rewrite (to_size_t_small s) by lia.
  destruct (offset >? s) eqn:E.
  { rewrite Z.gtb_ltb in E. apply Z.ltb_lt in E. lia. }
  rewrite (to_long_small offset) by lia.
  rewrite (to_size_t_small (s - offset)) by lia.
  assert ((if s - offset <? len then s - offset else len) = Z.min len (s - offset)) as ->.
  { destruct (s - offset <? len) eqn:E';
      [apply Z.ltb_lt in E' | apply Z.ltb_ge in E']; lia. }
  set (w := Z.min len (s - offset)).
  assert (0 <= w <= s - offset) as Hw by (unfold w; lia).
  unfold lseek_cur.
  destruct (0 <=? fd_pos fd1 + offset) eqn:E'; [| apply Z.leb_gt in E'; lia].
  unfold read_into. rewrite read_in_range by (simpl; lia). simpl fd_data. simpl fd_pos.
  rewrite slice_length by lia.
  rewrite (to_size_t_small (s - offset - w)) by lia.
  rewrite to_long_small by lia.
  unfold content_of. simpl fst. simpl snd. fold s.
  rewrite slice_slice by lia.
  reflexivity.
Qed.

Lemma read_content_at_end h fd1 dest len :
  0 <= len ->
  exists fd',
    read_content h fd1 (TAR_INT (hdr_size h)) dest len = mkRead 0 dest 0 fd' 0.
Proof.
  intros Hlen.
  pose proof (TAR_INT_range (hdr_size h)) as Hs. unfold LONG_MAX in Hs.
  set (s := TAR_INT (hdr_size h)) in *.
  unfold read_content. fold s.
  rewrite (to_size_t_small s) by lia.
  destruct (s >? s) eqn:E.
  { rewrite Z.gtb_ltb in E. apply Z.ltb_lt in E. lia. }
  rewrite Z.sub_diag. change (to_size_t 0) with 0.
  assert ((if 0 <? len then 0 else len) = 0) as ->.
  { destruct (0 <? len) eqn:E'; [reflexivity | apply Z.ltb_ge in E'; lia]. }
  unfold read_into, read.
  assert (Z.to_nat (Z.min 0 (Z.of_nat (List.length (fd_data (lseek_cur fd1 (to_long s))))
                             - fd_pos (lseek_cur fd1 (to_long s)))) = 0%nat) as -> by lia.
  simpl. eexists. reflexivity.
Qed.

(** C4.  For a regular-file entry of size [s] that the lookup of [path]
    selects, [read_file] at offset [s] returns 0 with [*len] set to 0 and the
    destination untouched, and at every offset above [s] it returns -2 (and
    leaves [*len] and the destination as they were). *)
Theorem read_file_offset_boundary fd es fd_end path fuel h fd1 dest len :
  walk fd es fd_end ->
  (strlen path <= 100)%nat ->
  (List.length es <= fuel)%nat ->
  first_match path es = Some (h, fd1) ->
  is_regular h = true ->
  0 <= len < 2 ^ 64 ->
  (exists r,
      read_file fuel fd path (TAR_INT (hdr_size h)) dest len = Ret r
      /\ rd_ret r = 0 /\ rd_len r = 0 /\ rd_dest r = dest)
  /\ (forall offset,
        TAR_INT (hdr_size h) < offset ->
        exists r,
          read_file fuel fd path offset dest len = Ret r
          /\ rd_ret r = -2 /\ rd_len r = len /\ rd_dest r = dest).
Proof.
  intros Hwalk Hpath Hfuel Hmatch Hreg Hlen.
  split.
  - pose proof (read_file_walk path Hpath fd es fd_end (TAR_INT (hdr_size h)) dest len
                  Hwalk fuel Hfuel) as H.
    rewrite Hmatch in H.
    destruct (is_regular_read_entry h fd1 (TAR_INT (hdr_size h)) dest len Hreg)
      as [Hsym Hentry].
    rewrite (H Hsym), Hentry.
    destruct (read_content_at_end h fd1 dest len) as [fd' Hr]; [lia |].
    rewrite Hr. eexists. split; [reflexivity |]. simpl. auto.
  - intros offset Hoff.
    pose proof (read_file_walk path Hpath fd es fd_end offset dest len
                  Hwalk fuel Hfuel) as H.
    rewrite Hmatch in H.
    destruct (is_regular_read_entry h fd1 offset dest len Hreg) as [Hsym Hentry].
    rewrite (H Hsym), Hentry, read_content_too_far by assumption.
    eexists. split; [reflexivity |]. simpl. auto.
Qed.

Lemma read_file_offset_boundary_witness :
  (exists r,
      read_file 6 (at_start dir_archive) (path_of "dir/a") 11 (zeros 4) 4 = Ret r
      /\ rd_ret r = 0 /\ rd_len r = 0 /\ rd_dest r = zeros 4)
  /\ (exists r,
      read_file 6 (at_start dir_archive) (path_of "dir/a") 12 (zeros 4) 4 = Ret r
      /\ rd_ret r = -2 /\ rd_len r = 4 /\ rd_dest r = zeros 4).
Proof.
  assert (walk (at_start dir_archive)
               (fst (walked dir_archive)) (snd (walked dir_archive))) as Hw.
  { apply (walk_of_sound 64). vm_compute. reflexivity. }
  assert (strlen (path_of "dir/a") <= 100)%nat as Hp by (vm_compute; lia).
  assert (List.length (fst (walked dir_archive)) <= 6)%nat as Hf by (vm_compute; lia).
  assert (first_match (path_of "dir/a") (fst (walked dir_archive))
          = Some (fst dir_a_entry, snd dir_a_entry)) as Hm
      by (vm_compute; reflexivity).
  assert (is_regular (fst dir_a_entry) = true) as Hr by (vm_compute; reflexivity).
  assert (0 <= 4 < 2 ^ 64) as Hl by (vm_compute; split; congruence).
  destruct (read_file_offset_boundary _ _ _ _ _ _ _ (zeros 4) 4 Hw Hp Hf Hm Hr Hl)
    as [Hat Habove].
  assert (TAR_INT (hdr_size (fst dir_a_entry)) = 11) as Hs by (vm_compute; reflexivity).
  rewrite Hs in Hat, Habove.
  split; [exact Hat | apply Habove; reflexivity].
Defined.

(** C5.  For a regular-file entry of size [s] that the lookup of [path]
    selects and whose content lies inside the file, [read_file] at an offset
    [o <= s] with a destination of capacity [c] writes the [min c (s - o)]
    bytes of the content that start at byte [o] (the rest of the destination
    stays), sets [*len] to that count and returns [s - o] less the count.  So
    a first read of [c1 < s] bytes followed by one that resumes at the offset
    [*len] of the first delivers, end to end, what one read of the whole
    file delivers: the content. *)
Theorem read_file_partial_reads fd es fd_end path fuel h fd1 :
  walk fd es fd_end ->
  (strlen path <= 100)%nat ->
  (List.length es <= fuel)%nat ->
  first_match path es = Some (h, fd1) ->
  is_regular h = true ->
  0 <= fd_pos fd1 ->
  fd_pos fd1 + TAR_INT (hdr_size h) <= Z.of_nat (List.length (fd_data fd1)) ->
  (forall o c dest,
      0 <= o <= TAR_INT (hdr_size h) ->
      0 <= c < 2 ^ 64 ->
      exists r,
        read_file fuel fd path o dest c = Ret r
        /\ rd_len r = Z.min c (TAR_INT (hdr_size h) - o)
        /\ rd_ret r = TAR_INT (hdr_size h) - o - rd_len r
        /\ delivered r = slice (content_of (h, fd1)) o (rd_len r)
        /\ skipn (Z.to_nat (rd_len r)) (rd_dest r) = skipn (Z.to_nat (rd_len r)) dest)
  /\ (forall c1 c2 c dest1 dest2 dest,
        0 <= c1 < TAR_INT (hdr_size h) ->
        TAR_INT (hdr_size h) - c1 <= c2 < 2 ^ 64 ->
        TAR_INT (hdr_size h) <= c < 2 ^ 64 ->
        exists r1 r2 r,
          read_file fuel fd path 0 dest1 c1 = Ret r1
          /\ read_file fuel fd path (rd_len r1) dest2 c2 = Ret r2
          /\ read_file fuel fd path 0 dest c = Ret r
          /\ rd_ret r1 = TAR_INT (hdr_size h) - c1
          /\ rd_ret r2 = 0
          /\ rd_ret r = 0
          /\ delivered r1 ++ delivered r2 = delivered r
          /\ delivered r = content_of (h, fd1)).
Proof.
  intros Hwalk Hpath Hfuel Hmatch Hreg Hpos Havail.
  pose proof (TAR_INT_range (hdr_size h)) as Hs. unfold LONG_MAX in Hs.
  assert (Hcontent : List.length (content_of (h, fd1))
                     = Z.to_nat (TAR_INT (hdr_size h))).
  { unfold content_of. simpl fst. simpl snd. apply slice_length; lia. }
  assert (Hone : forall o c dest,
      0 <= o <= TAR_INT (hdr_size h) ->
      0 <= c < 2 ^ 64 ->
      exists r,
        read_file fuel fd path o dest c = Ret r
        /\ rd_len r = Z.min c (TAR_INT (hdr_size h) - o)
        /\ rd_ret r = TAR_INT (hdr_size h) - o - rd_len r
        /\ delivered r = slice (content_of (h, fd1)) o (rd_len r)
        /\ skipn (Z.to_nat (rd_len r)) (rd_dest r) = skipn (Z.to_nat (rd_len r)) dest).
  { intros o c dest Ho Hc.
    pose proof (read_file_walk path Hpath fd es fd_end o dest c Hwalk fuel Hfuel) as H.
    rewrite Hmatch in H.
    destruct (is_regular_read_entry h fd1 o dest c Hreg) as [Hsym Hentry].
    rewrite (H Hsym), Hentry, read_content_spec by assumption.
    eexists. split; [reflexivity |].
    unfold delivered. cbn [rd_len rd_ret rd_dest].
    set (w := Z.min c (TAR_INT (hdr_size h) - o)).
    assert (List.length (slice (content_of (h, fd1)) o w) = Z.to_nat w) as Hlen.
    { apply slice_length; [lia | unfold w; lia | rewrite Hcontent; unfold w; lia]. }
    repeat split.
    - rewrite firstn_app, Hlen, Nat.sub_diag, firstn_O, app_nil_r.
      apply firstn_all2. lia.
    - rewrite skipn_app, Hlen, Nat.sub_diag.
      rewrite skipn_all2 by lia. reflexivity. }
  split; [exact Hone |].
  intros c1 c2 c dest1 dest2 dest Hc1 Hc2 Hc.
  destruct (Hone 0 c1 dest1) as (r1 & E1 & L1 & R1 & D1 & _); [lia | lia |].
  rewrite Z.sub_0_r, Z.min_l in L1 by lia.
  destruct (Hone (rd_len r1) c2 dest2) as (r2 & E2 & L2 & R2 & D2 & _);
    [lia | lia |].
  rewrite L1, Z.min_r in L2 by lia.
  destruct (Hone 0 c dest) as (r & E & L & R & D & _); [lia | lia |].
  rewrite Z.sub_0_r, Z.min_r in L by lia.
  exists r1, r2, r.
  repeat (split; [first [assumption | lia] |]).
  assert (delivered r = content_of (h, fd1)) as Hall.
  { rewrite D, L. unfold slice. simpl skipn. apply firstn_all2. lia. }
  split; [| exact Hall].
  rewrite Hall, D1, D2, L1, L2.
  unfold slice. simpl skipn.
  rewrite <- (firstn_skipn (Z.to_nat c1) (content_of (h, fd1))) at 3.
  f_equal. apply firstn_all2. rewrite length_skipn. lia.
Qed.

Lemma read_file_partial_reads_witness :
  exists r1 r2 r,
    read_file 6 (at_start dir_archive) (path_of "dir/a") 0 (zeros 4) 4 = Ret r1
    /\ read_file 6 (at_start dir_archive) (path_of "dir/a") (rd_len r1) (zeros 16) 16 = Ret r2
    /\ read_file 6 (at_start dir_archive) (path_of "dir/a") 0 (zeros 16) 16 = Ret r
    /\ rd_ret r1 = 7
    /\ rd_ret r2 = 0
    /\ rd_ret r = 0
    /\ delivered r1 ++ delivered r2 = delivered r
    /\ delivered r = list_byte_of_string "hello world".
Proof.
  assert (walk (at_start dir_archive)
               (fst (walked dir_archive)) (snd (walked dir_archive))) as Hw.
  { apply (walk_of_sound 64). vm_compute. reflexivity. }
  assert (strlen (path_of "dir/a") <= 100)%nat as Hp by (vm_compute; lia).
  assert (List.length (fst (walked dir_archive)) <= 6)%nat as Hf by (vm_compute; lia).
  assert (first_match (path_of "dir/a") (fst (walked dir_archive))
          = Some (fst dir_a_entry, snd dir_a_entry)) as Hm
      by (vm_compute; reflexivity).
  assert (is_regular (fst dir_a_entry) = true) as Hr by (vm_compute; reflexivity).
  assert (0 <= fd_pos (snd dir_a_entry)) as Hpos by (vm_compute; congruence).
  assert (fd_pos (snd dir_a_entry) + TAR_INT (hdr_size (fst dir_a_entry))
          <= Z.of_nat (List.length (fd_data (snd dir_a_entry)))) as Hav
      by (vm_compute; congruence).
  destruct (read_file_partial_reads _ _ _ _ _ _ _ Hw Hp Hf Hm Hr Hpos Hav)
    as [_ Htwo].
  assert (TAR_INT (hdr_size (fst dir_a_entry)) = 11) as Hs by (vm_compute; reflexivity).
  assert (content_of (fst dir_a_entry, snd dir_a_entry)
          = list_byte_of_string "hello world") as Hc by (vm_compute; reflexivity).
  rewrite Hs, Hc in Htwo.
  apply (Htwo 4 16 16 (zeros 4) (zeros 16) (zeros 16));
    vm_compute; split; congruence.
Defined.

(** ** Validation *)

Lemma check_archive_loop_step fuel fd count :
  check_archive_loop (S fuel) fd count =
  match read_header fd with
  | None => Undef
  | Some (buf, fd1) =>
      match validate buf with
      | Some c => Ret (c, fd1)
      | None =>
          match check_end (lseek_cur fd1 (next_header buf)) with
          | (None, _) => Undef
          | (Some true, fd3) => Ret (to_int (count + 1), fd3)
          | (Some false, fd3) => check_archive_loop fuel fd3 (to_int (count + 1))
          end
      end
  end.
Proof.
  cbn [check_archive_loop]. unfold validate.
  destruct (read_header fd) as [[buf fd1] |]; [| reflexivity].
  destruct (negb (strncmp (hdr_magic buf) TMAGIC (TMAGLEN - 1) =? 0));
    [reflexivity |].
  destruct (negb (strncmp (hdr_version buf) TVERSION TVERSLEN =? 0));
    [reflexivity |].
  destruct (negb (TAR_INT (hdr_chksum buf) =? header_checksum buf)); reflexivity.
Qed.

Lemma check_archive_loop_walk fd es fd_end :
  walk fd es fd_end ->
  forall fuel count,
    (List.length es <= fuel)%nat ->
    0 <= count ->
    count + Z.of_nat (List.length es) <= INT_MAX ->
    check_archive_loop fuel fd count =
    Ret (match first_invalid es with
         | Some (h, fd1) => (error_code h, fd1)
         | None => (count + Z.of_nat (List.length es), fd_end)
         end).
Proof.
  unfold INT_MAX.
  induction 1 as [fd buf fd1 fd3 Hread Hend
                 | fd buf fd1 fd3 es fd_end Hread Hend Hwalk IH];
    intros [| fuel] count Hfuel Hcount Hmax; simpl in Hfuel; try lia;
    rewrite check_archive_loop_step, Hread;
    unfold first_invalid, error_code; cbn [find fst];
    (destruct (validate buf) as [c |] eqn:V;
     [cbv beta iota; now rewrite V |]);
    rewrite Hend.
  - rewrite to_int_small by (cbn [List.length] in Hmax; lia). reflexivity.
  - cbn [List.length] in Hmax. rewrite Nat2Z.inj_succ in Hmax.
    rewrite to_int_small by lia.
    rewrite IH by lia.
    fold (first_invalid es). destruct (first_invalid es) as [[h' fd1'] |];
      [reflexivity |].
    cbn [List.length]. rewrite Nat2Z.inj_succ. do 2 f_equal. lia.
Qed.

(** ** Resolution of symbolic links *)

Lemma link_branch_unreachable (t : byte) :
  Byte.eqb t DIRTYPE || negb (Byte.eqb t REGTYPE || Byte.eqb t AREGTYPE) = false ->
  Byte.eqb t SYMTYPE = false.
Proof.
  intros H. apply orb_false_iff in H. destruct H as [_ H].
  apply negb_false_iff, orb_true_iff in H.
  destruct H as [H | H]; apply Byte.byte_dec_bl in H; subst t; reflexivity.
Qed.

Lemma read_content_hops buf fd1 offset dest len :
  rd_hops (read_content buf fd1 offset dest len) = 0%nat.
Proof.
  unfold read_content.
  destruct (offset >? to_size_t (TAR_INT (hdr_size buf))); [reflexivity |].
  now destruct (read_into _ _ _).
Qed.

(** A call of [read_symlink] never reaches its own recursive call: the test
    of line 646 has already answered -1 for a link. *)
Lemma read_symlink_hops fuel :
  forall fd path offset dest len r,
    read_symlink fuel fd path offset dest len = Ret r -> rd_hops r = 0%nat.
Proof.
  induction fuel as [| fuel IH]; intros fd path offset dest len r H;
    [discriminate |].
  cbn [read_symlink] in H.
  destruct (read_header fd) as [[buf fd1] |]; [| discriminate].
  destruct (strstr (hdr_name buf) path).
  - destruct (Byte.eqb (hdr_typeflag buf) DIRTYPE
              || negb (Byte.eqb (hdr_typeflag buf) REGTYPE
                       || Byte.eqb (hdr_typeflag buf) AREGTYPE)) eqn:E.
    + injection H as <-. reflexivity.
    + rewrite (link_branch_unreachable _ E) in H.
      injection H as <-. apply read_content_hops.
  - destruct (check_end (lseek_cur fd1 (next_header buf))) as [[[|] |] fd3];
      [| | discriminate].
    + injection H as <-. reflexivity.
    + eapply IH. exact H.
Qed.

Lemma read_file_hops fuel :
  forall fd path offset dest len r,
    read_file fuel fd path offset dest len = Ret r -> (rd_hops r <= 1)%nat.
Proof.
  induction fuel as [| fuel IH]; intros fd path offset dest len r H;
    [discriminate |].
  cbn [read_file] in H.
  destruct (read_header fd) as [[buf fd1] |]; [| discriminate].
  destruct (name_matches buf path).
  - destruct (Byte.eqb (hdr_typeflag buf) DIRTYPE).
    { injection H as <-. simpl. lia. }
    destruct (Byte.eqb (hdr_typeflag buf) SYMTYPE).
    { destruct (read_symlink fuel fd1 (hdr_linkname buf) offset dest len)
        as [r0 | |] eqn:E; try discriminate.
      apply read_symlink_hops in E. injection H as <-. simpl. lia. }
    destruct (negb (Byte.eqb (hdr_typeflag buf) REGTYPE
                    || Byte.eqb (hdr_typeflag buf) AREGTYPE)).
    { injection H as <-. simpl. lia. }
    injection H as <-. rewrite read_content_hops. lia.
  - destruct (check_end (lseek_cur fd1 (next_header buf))) as [[[|] |] fd3];
      [| | discriminate].
    + injection H as <-. simpl. lia.
    + eapply IH. exact H.
Qed.

(** X5.  [read_symlink] answers -1, with the destination and [*len] as they
    were, whenever the first entry whose name contains the target is not a
    regular file, a symbolic link included, and when there is no such
    entry. *)
Theorem read_symlink_refuses_links fd es fd_end target offset dest len fuel :
  walk fd es fd_end ->
  (List.length es <= fuel)%nat ->
  match first_containing target es with
  | Some (h, fd1) =>
      is_regular h = false ->
      read_symlink fuel fd target offset dest len = Ret (mkRead (-1) dest len fd1 0)
  | None =>
      read_symlink fuel fd target offset dest len = Ret (mkRead (-1) dest len fd_end 0)
  end.
Proof.
  intros Hwalk. revert fuel.
  induction Hwalk as [fd buf fd1 fd3 Hread Hend
                     | fd buf fd1 fd3 es fd_end Hread Hend Hwalk IH];
    intros [| fuel] Hfuel; simpl in Hfuel; try lia;
    cbn [read_symlink]; rewrite Hread;
    unfold first_containing; cbn [find fst];
    (destruct (strstr (hdr_name buf) target);
     [ unfold is_regular; intros ->; now rewrite orb_true_r
     | rewrite Hend ]);
    try reflexivity.
  apply IH. lia.
Qed.

Lemma read_symlink_refuses_links_witness :
  read_symlink 3 (mkFd cyclic_archive 512) (path_of "l2") 0 [] 0
  = Ret (mkRead (-1) [] 0 (mkFd cyclic_archive 1024) 0).
Proof.
  assert (walk (mkFd cyclic_archive 512)
               [(cycle_l2, mkFd cyclic_archive 1024);
                (cycle_f, mkFd cyclic_archive 1536)]
               (mkFd cyclic_archive 1536)) as Hw.
  { apply (walk_of_sound 3). vm_compute. reflexivity. }
  assert (List.length [(cycle_l2, mkFd cyclic_archive 1024);
                       (cycle_f, mkFd cyclic_archive 1536)] <= 3)%nat as Hf
      by (vm_compute; lia).
  pose proof (read_symlink_refuses_links _ _ _ (path_of "l2") 0 [] 0 _ Hw Hf) as H.
  assert (first_containing (path_of "l2")
            [(cycle_l2, mkFd cyclic_archive 1024); (cycle_f, mkFd cyclic_archive 1536)]
          = Some (cycle_l2, mkFd cyclic_archive 1024)) as Hm
      by (vm_compute; reflexivity).
  rewrite Hm in H. apply H. vm_compute. reflexivity.
Defined.

(** X19.  Whatever the archive, a call of [read_file] that returns has
    followed at most one symbolic link, and a call of [read_symlink] none:
    the test of line 646 answers -1 for an entry that is a link before the
    test of line 650 is reached, so the recursive call of line 652 is never
    made and a chain of links, cyclic or not, is never walked along. *)
Theorem resolution_follows_at_most_one_link fuel fd path offset dest len r :
  read_file fuel fd path offset dest len = Ret r ->
  (rd_hops r <= 1)%nat
  /\ (forall fuel' fd' target offset' dest' len' r',
        read_symlink fuel' fd' target offset' dest' len' = Ret r' ->
        rd_hops r' = 0%nat).
Proof.
  intros H. split.
  - exact (read_file_hops fuel fd path offset dest len r H).
  - intros fuel' fd' target offset' dest' len' r' H'.
    exact (read_symlink_hops fuel' fd' target offset' dest' len' r' H').
Qed.

Lemma resolution_follows_at_most_one_link_witness :
  read_file 8 (at_start cyclic_archive) (path_of "l1") 0 [] 0
  = Ret (mkRead (-1) [] 0 (mkFd cyclic_archive 1024) 1)
  /\ (rd_hops (mkRead (-1) [] 0 (mkFd cyclic_archive 1024) 1) <= 1)%nat.
Proof.
  assert (read_file 8 (at_start cyclic_archive) (path_of "l1") 0 [] 0
          = Ret (mkRead (-1) [] 0 (mkFd cyclic_archive 1024) 1)) as H
      by (vm_compute; reflexivity).
  split; [exact H |].
  exact (proj1 (resolution_follows_at_most_one_link _ _ _ _ _ _ _ H)).
Defined.

Lemma read_symlink_loops offset dest len :
  forall fuel,
    read_symlink fuel (mkFd looping_archive 512) (hdr_linkname loop_link)
                 offset dest len = OutOfFuel
    /\ read_symlink fuel (mkFd looping_archive 1024) (hdr_linkname loop_link)
                    offset dest len = OutOfFuel.
Proof.
  assert (read_header (mkFd looping_archive 512)
          = Some (loop_a, mkFd looping_archive 1024)) as Ha
      by (vm_compute; reflexivity).
  assert (read_header (mkFd looping_archive 1024)
          = Some (loop_b, mkFd looping_archive 1536)) as Hb
      by (vm_compute; reflexivity).
  assert (strstr (hdr_name loop_a) (hdr_linkname loop_link) = false) as Hna
      by (vm_compute; reflexivity).
  assert (strstr (hdr_name loop_b) (hdr_linkname loop_link) = false) as Hnb
      by (vm_compute; reflexivity).
  assert (check_end (lseek_cur (mkFd looping_archive 1024) (next_header loop_a))
          = (Some false, mkFd looping_archive 1024)) as Hea
      by (vm_compute; reflexivity).
  assert (check_end (lseek_cur (mkFd looping_archive 1536) (next_header loop_b))
          = (Some false, mkFd looping_archive 512)) as Heb
      by (vm_compute; reflexivity).
  induction fuel as [| fuel [IHa IHb]]; [split; reflexivity |].
  split; cbn [read_symlink].
  - rewrite Ha, Hna, Hea. exact IHb.
  - rewrite Hb, Hnb, Heb. exact IHa.
Qed.

Lemma read_file_loops fuel offset dest len :
  read_file fuel (at_start looping_archive) (path_of "l") offset dest len = OutOfFuel.
Proof.
  destruct fuel as [| fuel]; [reflexivity |].
  cbn [read_file].
  assert (read_header (at_start looping_archive)
          = Some (loop_link, mkFd looping_archive 512)) as Hl
      by (vm_compute; reflexivity).
  assert (name_matches loop_link (path_of "l") = true) as Hm
      by (vm_compute; reflexivity).
  assert (Byte.eqb (hdr_typeflag loop_link) DIRTYPE = false) as Hd
      by (vm_compute; reflexivity).
  assert (Byte.eqb (hdr_typeflag loop_link) SYMTYPE = true) as Hs
      by (vm_compute; reflexivity).
  rewrite Hl, Hm, Hd, Hs.
  now rewrite (proj1 (read_symlink_loops offset dest len fuel)).
Qed.

(** ** Where the code departs from its documentation *)

(** C1 fails on the code.  Read through "l2", one link away from the file,
    the content arrives; read through "l1", whose target "l2" is a link
    itself, the call returns -1 and delivers nothing: [read_symlink] tests
    for "not a regular file" (line 646) before it tests for a link (line
    650), so the recursive call of line 652 is never made. *)
Theorem read_file_link_to_link :
  answer (read_file 8 (at_start chain_archive) (path_of "file") 0 (zeros 4) 4)
  = Some (0, list_byte_of_string "hi" ++ zeros 2, 2)
  /\ answer (read_file 8 (at_start chain_archive) (path_of "l2") 0 (zeros 4) 4)
     = Some (0, list_byte_of_string "hi" ++ zeros 2, 2)
  /\ answer (read_file 8 (at_start chain_archive) (path_of "l1") 0 (zeros 4) 4)
     = Some (-1, zeros 4, 4).
Proof.
  split; [vm_compute; reflexivity |].
  split; vm_compute; reflexivity.
Qed.

Lemma read_file_link_to_earlier_entry :
  answer (read_file 8 (at_start backward_archive) (path_of "l") 0 (zeros 4) 4)
  = Some (-1, zeros 4, 4).
Proof. vm_compute. reflexivity. Qed.

(** C2 fails on the code for the archive without entries: the loop body runs
    before the first [check_end], so the first block of the end marker is
    validated as a header and its magic is found wrong. *)
Theorem check_archive_empty_archive :
  check_archive 8 (at_start end_marker) = Ret (-1, mkFd end_marker 512)
  /\ check_end (at_start end_marker) = (Some true, at_start end_marker).
Proof. split; vm_compute; reflexivity. Qed.

(** C3 fails on the code, in both halves.  [check_end] adds the 1024 bytes
    up as signed [char]s and compares the sum with zero; in
    [balanced_archive] the header of "b" and its content cancel, so
    [check_end] takes them for the end marker, [check_archive] counts one
    entry of two and [exists] does not find "b".  And with fewer than 1024
    bytes left the position is not given back: [read] advances by what it
    delivers, [lseek] goes back by 1024. *)
Theorem check_end_mistakes_content_for_the_end :
  slice balanced_archive 512 512 = balanced_b
  /\ add_chars balanced_b = 1669
  /\ check_end (mkFd balanced_archive 512) = (Some true, mkFd balanced_archive 512)
  /\ check_archive 8 (at_start balanced_archive) = Ret (1, mkFd balanced_archive 512)
  /\ exists_ 8 (at_start balanced_archive) (path_of "b")
     = Ret (0, mkFd balanced_archive 512)
  /\ exists_ 8 (mkFd balanced_archive 512) (path_of "b")
     = Ret (1, mkFd balanced_archive 1024)
  /\ check_end (mkFd (zeros 1500) 1100) = (None, mkFd (zeros 1500) 476).
Proof.
  split; [vm_compute; reflexivity |].
  split; [vm_compute; reflexivity |].
  split; [vm_compute; reflexivity |].
  split; [vm_compute; reflexivity |].
  split; [vm_compute; reflexivity |].
  split; vm_compute; reflexivity.
Qed.

(** C6 fails on the code for sizes from 2 GiB - 511 on: [next_header]
    computes in [int].  For a size of 2 GiB the rounded size is 2^31, which
    is returned as -2^31; the [lseek] that follows then fails or moves
    backwards. *)
Theorem next_header_wraps :
  TAR_INT (hdr_size (mk_header "big" REGTYPE (2 ^ 31) "")) = 2 ^ 31
  /\ next_header (mk_header "big" REGTYPE (2 ^ 31) "") = - 2 ^ 31
  /\ TAR_INT (hdr_size loop_b) = 2 ^ 32 - 1024
  /\ next_header loop_b = -1024.
Proof.
  split; [vm_compute; reflexivity |].
  split; [vm_compute; reflexivity |].
  split; vm_compute; reflexivity.
Qed.

(** C7 fails on the code.  [balanced_archive] holds the regular files "a"
    and "b", both with headers that pass the three tests of
    [check_archive], and its end marker, the only blocks of zeros, at offset
    1536.  The entry "b" is stored at offset 512, in front of the end
    marker, and yet, from the start of the archive, [exists] and [is_file]
    answer 0 for "b" and [read_file] answers -1: the scan stops behind the
    header of "a", where [check_end] takes the header of "b" and its content
    for the end marker (the defect of C3).  And a path longer than the name
    field is compared with the bytes behind the field: [exists] answers 1
    for a path of 107 bytes on an archive whose only name has 100. *)
Theorem lookup_misses_a_stored_entry :
  slice balanced_archive 512 512 = balanced_b
  /\ name_field balanced_b = path_of "b"
  /\ is_regular balanced_b = true
  /\ validate (slice balanced_archive 0 512) = None
  /\ validate balanced_b = None
  /\ map (fun k => forallb is_nul (slice balanced_archive (512 * Z.of_nat k) 512))
         (seq 0 5) = [false; false; false; true; true]
  /\ exists_ 8 (at_start balanced_archive) (path_of "b")
     = Ret (0, mkFd balanced_archive 512)
  /\ is_file 8 (at_start balanced_archive) (path_of "b")
     = Ret (0, mkFd balanced_archive 512)
  /\ answer (read_file 8 (at_start balanced_archive) (path_of "b") 0 (zeros 4) 4)
     = Some (-1, zeros 4, 4)
  /\ is_file 8 (mkFd balanced_archive 512) (path_of "b")
     = Ret (1, mkFd balanced_archive 1024)
  /\ name_field long_name_header = long_name
  /\ validate long_name_header = None
  /\ strlen long_path = 107%nat
  /\ has_prefix long_path long_name_header = false
  /\ exists_ 8 (at_start long_name_archive) long_path
     = Ret (1, mkFd long_name_archive 512).
Proof.
  split; [vm_compute; reflexivity |].
  split; [vm_compute; reflexivity |].
  split; [vm_compute; reflexivity |].
  split; [vm_compute; reflexivity |].
  split; [vm_compute; reflexivity |].
  split; [vm_compute; reflexivity |].
  split; [vm_compute; reflexivity |].
  split; [vm_compute; reflexivity |].
  split; [vm_compute; reflexivity |].
  split; [vm_compute; reflexivity |].
  split; [vm_compute; reflexivity |].
  split; [vm_compute; reflexivity |].
  split; [vm_compute; reflexivity |].
  split; vm_compute; reflexivity.
Qed.

(** C8 fails on the code.  [list] never looks at the type of the entry that
    matches its path: for the path "f", a regular file, it returns 1 and
    writes the entry "fg".  Nor does it stay at one level: a directory inside
    a sub-directory is listed ("dir/c/f/"), only files below the first level
    are left out. *)
Theorem list_of_a_regular_file :
  is_dir 8 (at_start prefix_archive) (path_of "f") = Ret (0, mkFd prefix_archive 512)
  /\ listing (list_ 8 (at_start prefix_archive) (path_of "f") [zeros 4; zeros 4] 2)
     = Some (1, [list_byte_of_string "fg" ++ zeros 2; zeros 4], 1)
  /\ listing (list_ 8 (at_start nested_archive) (path_of "dir/")
                    [zeros 10; zeros 10; zeros 10] 3)
     = Some (2, [list_byte_of_string "dir/c/" ++ zeros 4;
                 list_byte_of_string "dir/c/f/" ++ zeros 2;
                 zeros 10], 2).
Proof.
  split; [vm_compute; reflexivity |].
  split; vm_compute; reflexivity.
Qed.

(** C9 fails on the code.  [looping_archive] starts with the link "l"; read
    through it, [read_file] hands the scan for the target to [read_symlink],
    which walks from the header of "a" to the header of "b", whose size of
    2^32 - 1024 bytes [next_header] returns as -1024 (the wrap of C6), and so
    back to the header of "a": no bound on the iterations lets the call
    return.  The number of links followed is not what fails: it is at most
    one on every archive. *)
Theorem resolution_does_not_terminate :
  slice looping_archive 0 512 = loop_link
  /\ hdr_typeflag loop_link = SYMTYPE
  /\ name_field loop_link = path_of "l"
  /\ TAR_INT (hdr_size loop_b) = 2 ^ 32 - 1024
  /\ next_header loop_b = -1024
  /\ (forall fuel offset dest len,
        read_file fuel (at_start looping_archive) (path_of "l") offset dest len
        = OutOfFuel)
  /\ (forall fuel offset dest len,
        read_symlink fuel (mkFd looping_archive 512) (hdr_linkname loop_link)
                     offset dest len = OutOfFuel).
Proof.
  split; [vm_compute; reflexivity |].
  split; [vm_compute; reflexivity |].
  split; [vm_compute; reflexivity |].
  split; [vm_compute; reflexivity |].
  split; [vm_compute; reflexivity |].
  split; [intros; apply read_file_loops |].
  intros fuel offset dest len.
  exact (proj1 (read_symlink_loops offset dest len fuel)).
Qed.

(** ** What holds of [check_archive], [next_header], [check_end] and [list] *)

(** X1.  On an archive with at least one entry [check_archive] does what its
    comment says: it returns the number of headers the walk visits before
    the end marker when all of them pass the three tests, and otherwise the
    code of the first test that the first offending header fails (-1 magic,
    -2 version, -3 checksum, tested in that order), with the descriptor left
    just behind that header: nothing further has been read. *)
Theorem check_archive_counts_headers fd es fd_end fuel :
  walk fd es fd_end ->
  (List.length es <= fuel)%nat ->
  Z.of_nat (List.length es) <= INT_MAX ->
  check_archive fuel fd =
  Ret (match first_invalid es with
       | Some (h, fd1) => (error_code h, fd1)
       | None => (Z.of_nat (List.length es), fd_end)
       end)
  /\ (forall h fd1,
        first_invalid es = Some (h, fd1) ->
        error_code h = -1 \/ error_code h = -2 \/ error_code h = -3).
Proof.
  intros Hwalk Hfuel Hmax. split.
  - unfold check_archive.
    rewrite (check_archive_loop_walk fd es fd_end) by (auto; lia). reflexivity.
  - intros h fd1 H. unfold first_invalid in H. apply find_some in H.
    destruct H as [_ H]. cbn [fst] in H. unfold error_code.
    unfold validate in *.
    destruct (negb (strncmp (hdr_magic h) TMAGIC (TMAGLEN - 1) =? 0)); [now left |].
    destruct (negb (strncmp (hdr_version h) TVERSION TVERSLEN =? 0));
      [now right; left |].
    destruct (negb (TAR_INT (hdr_chksum h) =? header_checksum h));
      [now right; right | discriminate].
Qed.

Lemma check_archive_counts_headers_witness :
  check_archive 6 (at_start dir_archive) = Ret (6, mkFd dir_archive 3584)
  /\ check_archive 6 (at_start corrupt_archive) = Ret (-3, mkFd corrupt_archive 2048).
Proof.
  split.
  - assert (walk (at_start dir_archive)
                 (fst (walked dir_archive)) (snd (walked dir_archive))) as Hw.
    { apply (walk_of_sound 64). vm_compute. reflexivity. }
    assert (List.length (fst (walked dir_archive)) <= 6)%nat as Hf by (vm_compute; lia).
    assert (Z.of_nat (List.length (fst (walked dir_archive))) <= INT_MAX) as Hm
        by (vm_compute; congruence).
    rewrite (proj1 (check_archive_counts_headers _ _ _ _ Hw Hf Hm)).
    vm_compute. reflexivity.
  - assert (walk (at_start corrupt_archive)
                 (fst (walked corrupt_archive)) (snd (walked corrupt_archive))) as Hw.
    { apply (walk_of_sound 64). vm_compute. reflexivity. }
    assert (List.length (fst (walked corrupt_archive)) <= 6)%nat as Hf
        by (vm_compute; lia).
    assert (Z.of_nat (List.length (fst (walked corrupt_archive))) <= INT_MAX) as Hm
        by (vm_compute; congruence).
    rewrite (proj1 (check_archive_counts_headers _ _ _ _ Hw Hf Hm)).
    vm_compute. reflexivity.
Defined.

(** X2.  While the rounded size fits an [int], [next_header] is the size
    rounded up to a multiple of 512. *)
Theorem next_header_rounds_up (header : list byte) :
  TAR_INT (hdr_size header) <= 2 ^ 31 - 512 ->
  next_header header = (TAR_INT (hdr_size header) + 511) / 512 * 512
  /\ TAR_INT (hdr_size header) <= next_header header < TAR_INT (hdr_size header) + 512
  /\ next_header header mod 512 = 0.
Proof.
  intros Hmax.
  pose proof (TAR_INT_range (hdr_size header)) as [Hs _].
  unfold next_header. set (s := TAR_INT (hdr_size header)) in *.
  rewrite Z.quot_div_nonneg, Z.rem_mod_nonneg by lia.
  pose proof (Z.div_mod s 512 ltac:(lia)) as Hdm.
  pose proof (Z.mod_pos_bound s 512 ltac:(lia)) as Hr.
  assert (0 <= s / 512 <= 2 ^ 22 - 1) as Hq by lia.
  rewrite (to_int_small (s / 512)) by lia.
  destruct (s mod 512 =? 0) eqn:E; cbn [negb].
  - apply Z.eqb_eq in E.
    assert ((s + 511) / 512 = s / 512) as ->
        by (symmetry; apply (Z.div_unique _ _ _ 511); lia).
    rewrite to_int_small by lia.
    split; [reflexivity |]. split; [lia |]. now rewrite Z.mod_mul by lia.
  - apply Z.eqb_neq in E.
    assert ((s + 511) / 512 = s / 512 + 1) as ->
        by (symmetry; apply (Z.div_unique _ _ _ (s mod 512 - 1)); lia).
    rewrite (to_int_small (s / 512 + 1)) by lia.
    rewrite to_int_small by lia.
    split; [reflexivity |]. split; [lia |]. now rewrite Z.mod_mul by lia.
Qed.

Lemma next_header_rounds_up_witness :
  next_header (mk_header "dir/a" REGTYPE 11 "") = 512.
Proof.
  assert (TAR_INT (hdr_size (mk_header "dir/a" REGTYPE 11 "")) <= 2 ^ 31 - 512) as H
      by (vm_compute; congruence).
  rewrite (proj1 (next_header_rounds_up _ H)).
  vm_compute. reflexivity.
Defined.

Lemma add_chars_sum (bs : list byte) :
  forall acc,
    0 <= acc ->
    acc + 127 * Z.of_nat (List.length bs) < 2 ^ 31 ->
    Forall (fun b => 0 <= schar b) bs ->
    fold_left (fun acc b => to_int (acc + schar b)) bs acc = 0 ->
    acc = 0 /\ bs = zeros (List.length bs).
Proof.
  induction bs as [| b bs IH]; intros acc Hacc Hmax Hpos H;
    cbn [fold_left List.length] in *.
  - split; [exact H | reflexivity].
  - inversion Hpos as [| ? ? Hb Hbs]; subst.
    pose proof (schar_range b) as Hr.
    rewrite Nat2Z.inj_succ in Hmax.
    rewrite to_int_small in H by lia.
    destruct (IH (acc + schar b)) as [H0 Hz]; [lia | lia | assumption | assumption |].
    assert (schar b = 0) as Hb0 by lia.
    apply schar_zero in Hb0. subst b.
    split; [change (schar NUL) with 0 in H0; lia |].
    unfold zeros in *. cbn [repeat]. now rewrite <- Hz.
Qed.

Lemma add_chars_zeros (n : nat) : add_chars (zeros n) = 0.
Proof.
  unfold add_chars, zeros. induction n as [| n IH]; [reflexivity |].
  cbn [repeat fold_left]. exact IH.
Qed.

Lemma check_end_full_read (fd : fd_state) :
  0 <= fd_pos fd ->
  fd_pos fd + 1024 <= Z.of_nat (List.length (fd_data fd)) ->
  check_end fd = (Some (add_chars (slice (fd_data fd) (fd_pos fd) 1024) =? 0), fd).
Proof.
  intros Hpos Havail. unfold check_end.
  rewrite read_in_range by lia.
  rewrite slice_length by lia. cbn [Z.to_nat Pos.to_nat Pos.iter_op Nat.add Nat.eqb].
  change (Pos.to_nat 1024 =? 1024)%nat with true. cbv iota.
  unfold lseek_cur. cbn [fd_pos fd_data].
  destruct (0 <=? fd_pos fd + 1024 + -1024) eqn:E; [| apply Z.leb_gt in E; lia].
  destruct fd as [data pos]. cbn [fd_pos fd_data]. do 2 f_equal. lia.
Qed.

(** X3.  With 1024 bytes left at the read position, [check_end] returns with
    the descriptor as it found it and answers true when all those bytes are
    zero; when none of them is above 0x7f it answers true only then. *)
Theorem check_end_at_end_marker (fd : fd_state) :
  0 <= fd_pos fd ->
  fd_pos fd + 1024 <= Z.of_nat (List.length (fd_data fd)) ->
  snd (check_end fd) = fd
  /\ (slice (fd_data fd) (fd_pos fd) 1024 = zeros 1024 ->
      fst (check_end fd) = Some true)
  /\ (Forall (fun b => 0 <= schar b) (slice (fd_data fd) (fd_pos fd) 1024) ->
      fst (check_end fd) = Some true ->
      slice (fd_data fd) (fd_pos fd) 1024 = zeros 1024).
Proof.
  intros Hpos Havail. rewrite check_end_full_read by assumption. cbn [fst snd].
  split; [reflexivity |]. split.
  - intros ->. now rewrite add_chars_zeros.
  - intros Hascii H. injection H as H. apply Z.eqb_eq in H.
    assert (List.length (slice (fd_data fd) (fd_pos fd) 1024) = 1024%nat) as Hlen
        by (rewrite slice_length by lia; reflexivity).
    destruct (add_chars_sum (slice (fd_data fd) (fd_pos fd) 1024) 0) as [_ Hz];
      [lia | rewrite Hlen; reflexivity | assumption | exact H |].
    now rewrite Hlen in Hz.
Qed.

Lemma check_end_at_end_marker_witness :
  check_end (mkFd dir_archive 3584) = (Some true, mkFd dir_archive 3584).
Proof.
  assert (0 <= fd_pos (mkFd dir_archive 3584)) as Hp by (vm_compute; congruence).
  assert (fd_pos (mkFd dir_archive 3584) + 1024
          <= Z.of_nat (List.length (fd_data (mkFd dir_archive 3584)))) as Ha
      by (vm_compute; congruence).
  destruct (check_end_at_end_marker _ Hp Ha) as (Hsnd & Hfst & _).
  rewrite (surjective_pairing (check_end (mkFd dir_archive 3584))).
  rewrite Hsnd, Hfst; [reflexivity | vm_compute; reflexivity].
Defined.

(** X4.  The example of the comment above [list]: the entries of "dir/" are
    "dir/a", "dir/b", "dir/c/" and "dir/e/", in storage order, and not
    "dir/c/d"; with room for two entries the first two are written and 2 is
    returned; a path that no entry has as a prefix gives 0 and writes
    nothing. *)
Theorem list_of_the_example_directory :
  listing (list_ 8 (at_start dir_archive) (path_of "dir/")
                 [zeros 8; zeros 8; zeros 8; zeros 8; zeros 8] 5)
  = Some (4, [list_byte_of_string "dir/a" ++ zeros 3;
              list_byte_of_string "dir/b" ++ zeros 3;
              list_byte_of_string "dir/c/" ++ zeros 2;
              list_byte_of_string "dir/e/" ++ zeros 2;
              zeros 8], 4)
  /\ listing (list_ 8 (at_start dir_archive) (path_of "dir/") [zeros 8; zeros 8] 2)
     = Some (2, [list_byte_of_string "dir/a" ++ zeros 3;
                 list_byte_of_string "dir/b" ++ zeros 3], 2)
  /\ listing (list_ 8 (at_start dir_archive) (path_of "nope") [zeros 8; zeros 8] 2)
     = Some (0, [zeros 8; zeros 8], 0).
Proof.
  split; [vm_compute; reflexivity |].
  split; vm_compute; reflexivity.
Qed.

(** ** What the calls never do *)

Lemma validate_codes (buf : list byte) (c : Z) :
  validate buf = Some c -> c = -1 \/ c = -2 \/ c = -3.
Proof.
  unfold validate.
  destruct (negb (strncmp (hdr_magic buf) TMAGIC (TMAGLEN - 1) =? 0));
    [intros [= <-]; now left |].
  destruct (negb (strncmp (hdr_version buf) TVERSION TVERSLEN =? 0));
    [intros [= <-]; now right; left |].
  destruct (negb (TAR_INT (hdr_chksum buf) =? header_checksum buf));
    [intros [= <-]; now right; right | discriminate].
Qed.

Lemma check_archive_loop_range (fuel : nat) :
  forall fd count v fd',
    0 <= count ->
    count + Z.of_nat fuel <= INT_MAX ->
    check_archive_loop fuel fd count = Ret (v, fd') ->
    v = -1 \/ v = -2 \/ v = -3 \/ count < v <= count + Z.of_nat fuel.
Proof.
  unfold INT_MAX.
  induction fuel as [| fuel IH]; intros fd count v fd' Hcount Hmax H;
    [discriminate |].
  rewrite Nat2Z.inj_succ in *.
  rewrite check_archive_loop_step in H.
  destruct (read_header fd) as [[buf fd1] |]; [| discriminate].
  destruct (validate buf) as [c |] eqn:V.
  - injection H as <- _. apply validate_codes in V. intuition.
  - rewrite to_int_small in H by lia.
    destruct (check_end (lseek_cur fd1 (next_header buf))) as [[[|] |] fd3];
      [| | discriminate].
    + injection H as <- _. right; right; right. lia.
    + apply IH in H; [| lia | lia].
      destruct H as [H | [H | [H | H]]]; auto.
      right; right; right. lia.
Qed.

(** X6.  [check_archive] never returns 0: whenever it returns (within fewer
    than 2^31 iterations), the value is -1, -2, -3 or a count of at least
    one header, at most the number of iterations. *)
Theorem check_archive_never_zero (fuel : nat) (fd fd' : fd_state) (v : Z) :
  Z.of_nat fuel <= INT_MAX ->
  check_archive fuel fd = Ret (v, fd') ->
  v = -1 \/ v = -2 \/ v = -3 \/ 1 <= v <= Z.of_nat fuel.
Proof.
  intros Hmax H. unfold check_archive in H.
  apply check_archive_loop_range in H; [| lia | lia].
  destruct H as [H | [H | [H | H]]]; auto.
  right; right; right. lia.
Qed.

Lemma check_archive_never_zero_witness :
  (6 = -1 \/ 6 = -2 \/ 6 = -3 \/ 1 <= 6 <= Z.of_nat 8)
  /\ (-1 = -1 \/ -1 = -2 \/ -1 = -3 \/ 1 <= -1 <= Z.of_nat 8).
Proof.
  assert (Z.of_nat 8 <= INT_MAX) as Hmax by (vm_compute; congruence).
  split.
  - apply (check_archive_never_zero 8 (at_start dir_archive) (mkFd dir_archive 3584) 6 Hmax).
    vm_compute. reflexivity.
  - apply (check_archive_never_zero 8 (at_start end_marker) (mkFd end_marker 512) (-1) Hmax).
    vm_compute. reflexivity.
Defined.

Lemma read_length (fd : fd_state) (count : Z) :
  (List.length (fst (read fd count)) <= Z.to_nat count)%nat.
Proof.
  unfold read. cbn [fst]. rewrite length_firstn. lia.
Qed.

Lemma skipn_app_skipn (bs dest : list byte) (n : nat) :
  (List.length bs <= n)%nat ->
  skipn n (bs ++ skipn (List.length bs) dest) = skipn n dest.
Proof.
  intros H. rewrite skipn_app, skipn_skipn.
  rewrite (skipn_all2 bs) by lia. cbn [app].
  f_equal. lia.
Qed.

Lemma read_content_safe buf fd1 offset dest len :
  0 <= offset -> 0 <= len ->
  0 <= rd_len (read_content buf fd1 offset dest len) <= len
  /\ skipn (Z.to_nat (rd_len (read_content buf fd1 offset dest len)))
           (rd_dest (read_content buf fd1 offset dest len))
     = skipn (Z.to_nat (rd_len (read_content buf fd1 offset dest len))) dest
  /\ ((len <= Z.of_nat (List.length dest)) ->
      List.length (rd_dest (read_content buf fd1 offset dest len)) = List.length dest)
  /\ (rd_ret (read_content buf fd1 offset dest len) = -2
      /\ rd_dest (read_content buf fd1 offset dest len) = dest
      /\ rd_len (read_content buf fd1 offset dest len) = len
      \/ 0 <= rd_ret (read_content buf fd1 offset dest len)).
Proof.
  intros Hoff Hlen.
  pose proof (TAR_INT_range (hdr_size buf)) as Hs. unfold LONG_MAX in Hs.
  unfold read_content. set (s := TAR_INT (hdr_size buf)) in *.
  rewrite (to_size_t_small s) by lia.
  destruct (offset >? s) eqn:E.
  { cbn [rd_len rd_dest rd_ret].
    split; [lia |]. split; [reflexivity |]. split; [reflexivity |]. left. auto. }
  rewrite Z.gtb_ltb in E. apply Z.ltb_ge in E.
  rewrite (to_size_t_small (s - offset)) by lia.
  set (len1 := if s - offset <? len then s - offset else len).
  assert (0 <= len1 <= len /\ len1 <= s - offset) as Hlen1.
  { unfold len1. destruct (s - offset <? len) eqn:E';
      [apply Z.ltb_lt in E' | apply Z.ltb_ge in E']; lia. }
  unfold read_into.
  pose proof (read_length (lseek_cur fd1 (to_long offset)) len1) as Hbs.
  destruct (read (lseek_cur fd1 (to_long offset)) len1) as [bs fd3].
  cbn [fst] in Hbs. cbn [rd_len rd_dest rd_ret].
  rewrite (to_size_t_small (s - offset - len1)) by lia.
  rewrite to_long_small by lia.
  split; [lia |]. split; [apply skipn_app_skipn; lia |].
  split; [| right; lia].
  intros Hcap. rewrite length_app, length_skipn. lia.
Qed.

Lemma read_symlink_safe (fuel : nat) :
  forall fd path offset dest len r,
    0 <= offset -> 0 <= len ->
    read_symlink fuel fd path offset dest len = Ret r ->
    0 <= rd_len r <= len
    /\ skipn (Z.to_nat (rd_len r)) (rd_dest r) = skipn (Z.to_nat (rd_len r)) dest
    /\ (len <= Z.of_nat (List.length dest) -> List.length (rd_dest r) = List.length dest)
    /\ ((rd_ret r = -1 \/ rd_ret r = -2) /\ rd_dest r = dest /\ rd_len r = len
        \/ 0 <= rd_ret r).
Proof.
  induction fuel as [| fuel IH]; intros fd path offset dest len r Hoff Hlen H;
    [discriminate |].
  cbn [read_symlink] in H.
  destruct (read_header fd) as [[buf fd1] |]; [| discriminate].
  destruct (strstr (hdr_name buf) path).
  - destruct (Byte.eqb (hdr_typeflag buf) DIRTYPE
              || negb (Byte.eqb (hdr_typeflag buf) REGTYPE
                       || Byte.eqb (hdr_typeflag buf) AREGTYPE)) eqn:E.
    + injection H as <-. cbn [rd_len rd_dest rd_ret].
      split; [lia |]. split; [reflexivity |]. split; [reflexivity |]. left. auto.
    + rewrite (link_branch_unreachable _ E) in H. injection H as <-.
      destruct (read_content_safe buf fd1 offset dest len Hoff Hlen)
        as (H1 & H2 & H3 & H4).
      split; [exact H1 |]. split; [exact H2 |]. split; [exact H3 |].
      destruct H4 as [(H4 & H5 & H6) | H4]; [left; auto | right; exact H4].
  - destruct (check_end (lseek_cur fd1 (next_header buf))) as [[[|] |] fd3];
      [| | discriminate].
    + injection H as <-. cbn [rd_len rd_dest rd_ret].
      split; [lia |]. split; [reflexivity |]. split; [reflexivity |]. left. auto.
    + exact (IH _ _ _ _ _ _ Hoff Hlen H).
Qed.

(** X7.  Whatever the archive, a call of [read_file] that returns has written
    at most [*len] bytes: the new [*len] is between 0 and the old one, the
    destination is unchanged from that index on and keeps its length (when
    [*len] was no more than its size); the value returned is -1, -2 or not
    negative, and with -1 or -2 neither the destination nor [*len] has been
    touched. *)
Theorem read_file_respects_destination fuel fd path offset dest len r :
  0 <= offset -> 0 <= len ->
  read_file fuel fd path offset dest len = Ret r ->
  0 <= rd_len r <= len
  /\ skipn (Z.to_nat (rd_len r)) (rd_dest r) = skipn (Z.to_nat (rd_len r)) dest
  /\ (len <= Z.of_nat (List.length dest) -> List.length (rd_dest r) = List.length dest)
  /\ ((rd_ret r = -1 \/ rd_ret r = -2) /\ rd_dest r = dest /\ rd_len r = len
      \/ 0 <= rd_ret r).
Proof.
  revert fd. induction fuel as [| fuel IH]; intros fd Hoff Hlen H; [discriminate |].
  cbn [read_file] in H.
  destruct (read_header fd) as [[buf fd1] |]; [| discriminate].
  destruct (name_matches buf path).
  - destruct (Byte.eqb (hdr_typeflag buf) DIRTYPE).
    { injection H as <-. cbn [rd_len rd_dest rd_ret].
      split; [lia |]. split; [reflexivity |]. split; [reflexivity |]. left. auto. }
    destruct (Byte.eqb (hdr_typeflag buf) SYMTYPE).
    { destruct (read_symlink fuel fd1 (hdr_linkname buf) offset dest len)
        as [r0 | |] eqn:E; try discriminate.
      injection H as <-. cbn [rd_len rd_dest rd_ret].
      exact (read_symlink_safe fuel _ _ _ _ _ _ Hoff Hlen E). }
    destruct (negb (Byte.eqb (hdr_typeflag buf) REGTYPE
                    || Byte.eqb (hdr_typeflag buf) AREGTYPE)).
    { injection H as <-. cbn [rd_len rd_dest rd_ret].
      split; [lia |]. split; [reflexivity |]. split; [reflexivity |]. left. auto. }
    injection H as <-.
    destruct (read_content_safe buf fd1 offset dest len Hoff Hlen)
      as (H1 & H2 & H3 & H4).
    split; [exact H1 |]. split; [exact H2 |]. split; [exact H3 |].
    destruct H4 as [(H4 & H5 & H6) | H4]; [left; auto | right; exact H4].
  - destruct (check_end (lseek_cur fd1 (next_header buf))) as [[[|] |] fd3];
      [| | discriminate].
    + injection H as <-. cbn [rd_len rd_dest rd_ret].
      split; [lia |]. split; [reflexivity |]. split; [reflexivity |]. left. auto.
    + exact (IH _ Hoff Hlen H).
Qed.

Lemma read_file_respects_destination_witness :
  exists r,
    read_file 6 (at_start dir_archive) (path_of "dir/a") 6 (zeros 8) 3 = Ret r
    /\ 0 <= rd_len r <= 3
    /\ skipn (Z.to_nat (rd_len r)) (rd_dest r) = skipn (Z.to_nat (rd_len r)) (zeros 8).
Proof.
  destruct (read_file 6 (at_start dir_archive) (path_of "dir/a") 6 (zeros 8) 3)
    as [r | |] eqn:E; [| vm_compute in E; discriminate | vm_compute in E; discriminate].
  exists r. split; [reflexivity |].
  assert (0 <= 6) as Ho by lia.
  assert (0 <= 3) as Hl by lia.
  destruct (read_file_respects_destination _ _ _ _ _ _ _ Ho Hl E) as (H1 & H2 & _).
  split; assumption.
Defined.

(** ** Block alignment and termination *)

Lemma to_int_multiple (x : Z) : to_int (x * 512) mod 512 = 0.
Proof.
  unfold to_int, wrap_signed.
  change (2 ^ (32 - 1)) with (512 * 4194304).
  change (2 ^ 32) with (512 * 8388608).
  replace (x * 512 + 512 * 4194304) with (512 * (x + 4194304)) by lia.
  rewrite Z.mul_mod_distr_l by lia.
  rewrite <- Z.mul_sub_distr_l, Z.mul_comm.
  apply Z.mod_mul. lia.
Qed.

Lemma next_header_aligned (header : list byte) : next_header header mod 512 = 0.
Proof. unfold next_header. apply to_int_multiple. Qed.

Lemma read_header_some fd buf fd1 :
  0 <= fd_pos fd ->
  read_header fd = Some (buf, fd1) ->
  buf = slice (fd_data fd) (fd_pos fd) 512
  /\ fd_pos fd + 512 <= Z.of_nat (List.length (fd_data fd))
  /\ fd1 = mkFd (fd_data fd) (fd_pos fd + 512).
Proof.
  intros Hpos H.
  assert (fd_pos fd + 512 <= Z.of_nat (List.length (fd_data fd))) as Hav.
  { unfold read_header, read in H.
    match type of H with
    | context [(List.length ?l =? 512)%nat] =>
        destruct (List.length l =? 512)%nat eqn:E; [| discriminate]
    end.
    apply Nat.eqb_eq in E. rewrite length_firstn, length_skipn in E. lia. }
  unfold read_header in H. rewrite read_in_range in H by lia.
  rewrite slice_length in H by lia.
  change (Z.to_nat 512 =? 512)%nat with true in H.
  injection H as <- <-. auto.
Qed.

Lemma check_end_some fd b fd3 :
  0 <= fd_pos fd ->
  check_end fd = (Some b, fd3) ->
  fd3 = fd /\ fd_pos fd + 1024 <= Z.of_nat (List.length (fd_data fd)).
Proof.
  intros Hpos H.
  assert (fd_pos fd + 1024 <= Z.of_nat (List.length (fd_data fd))) as Hav.
  { unfold check_end, read in H.
    match type of H with
    | context [(List.length ?l =? 1024)%nat] =>
        destruct (List.length l =? 1024)%nat eqn:E; [| discriminate]
    end.
    apply Nat.eqb_eq in E. rewrite length_firstn, length_skipn in E. lia. }
  rewrite check_end_full_read in H by assumption.
  injection H as _ <-. auto.
Qed.

Lemma lseek_cur_aligned fd off :
  aligned fd -> off mod 512 = 0 ->
  aligned (lseek_cur fd off)
  /\ fd_data (lseek_cur fd off) = fd_data fd
  /\ (0 <= off -> fd_pos (lseek_cur fd off) = fd_pos fd + off).
Proof.
  intros [Hpos Hal] Hoff. unfold lseek_cur, aligned.
  destruct (0 <=? fd_pos fd + off) eqn:E; cbn [fd_pos fd_data].
  - apply Z.leb_le in E. repeat split; try lia.
    rewrite Z.add_mod, Hal, Hoff by lia. reflexivity.
  - apply Z.leb_gt in E. repeat split; try lia; assumption.
Qed.

(** One turn of the shared loop, from an aligned position: the header is a
    block of the file, and the descriptor after [check_end] is aligned
    again, at or behind the end of the header. *)
Lemma loop_turn fd buf fd1 b fd3 :
  aligned fd ->
  read_header fd = Some (buf, fd1) ->
  check_end (lseek_cur fd1 (next_header buf)) = (Some b, fd3) ->
  aligned fd1 /\ fd_data fd1 = fd_data fd /\ fd_pos fd1 = fd_pos fd + 512
  /\ aligned fd3 /\ fd_data fd3 = fd_data fd
  /\ fd_pos fd3 + 1024 <= Z.of_nat (List.length (fd_data fd))
  /\ (0 <= next_header buf -> fd_pos fd + 512 <= fd_pos fd3).
Proof.
  intros [Hpos Hal] Hread Hend.
  destruct (read_header_some fd buf fd1 Hpos Hread) as (_ & Hav & ->).
  assert (aligned (mkFd (fd_data fd) (fd_pos fd + 512))) as Hal1.
  { split; cbn [fd_pos]; [lia |].
    rewrite Z.add_mod, Hal by lia. reflexivity. }
  destruct (lseek_cur_aligned _ (next_header buf) Hal1 (next_header_aligned buf))
    as (Hal2 & Hd2 & Hp2).
  destruct (check_end_some _ b fd3 (proj1 Hal2) Hend) as [-> Hav3].
  cbn [fd_data fd_pos] in *. rewrite Hd2 in Hav3.
  repeat split; try assumption; try reflexivity; try apply Hal1; try apply Hal2.
  intros Hn. rewrite (Hp2 Hn). lia.
Qed.

Lemma read_header_aligned fd buf fd1 :
  aligned fd ->
  read_header fd = Some (buf, fd1) ->
  aligned fd1 /\ fd_data fd1 = fd_data fd.
Proof.
  intros [Hpos Hal] Hread.
  destruct (read_header_some fd buf fd1 Hpos Hread) as (_ & Hav & ->).
  split; [split |]; cbn [fd_pos fd_data]; [lia | | reflexivity].
  rewrite Z.add_mod, Hal by lia. reflexivity.
Qed.

(** The invariant of a lookup loop [f]: induction on the bound, one turn of
    the loop, [on_match] for the branch of the matched header. *)
Ltac scan_invariant f on_match :=
  let fuel := fresh "fuel" in
  let IH := fresh "IH" in
  intros fuel; induction fuel as [| fuel IH];
  intros fd v fd' Hal H; [discriminate |];
  cbn [f] in H;
  destruct (read_header fd) as [[buf fd1] |] eqn:Hread; [| discriminate];
  destruct (read_header_aligned fd buf fd1 Hal Hread) as [Hal1 Hd1];
  destruct (name_matches buf _);
  [ on_match buf
  | destruct (check_end (lseek_cur fd1 (next_header buf))) as [[[|] |] fd3] eqn:Hend;
    [ injection H as <- <-;
      destruct (loop_turn fd buf fd1 _ fd3 Hal Hread Hend) as (_ & _ & _ & ? & ? & _);
      auto
    | destruct (loop_turn fd buf fd1 _ fd3 Hal Hread Hend) as (_ & _ & _ & Hal3 & Hd3 & _);
      destruct (IH fd3 v fd' Hal3 H) as (? & Hd & ?);
      rewrite Hd, Hd3; auto
    | discriminate ] ].

Lemma exists_invariant path :
  forall fuel fd v fd',
    aligned fd -> exists_ fuel fd path = Ret (v, fd') ->
    aligned fd' /\ fd_data fd' = fd_data fd /\ (v = 0 \/ v = 1).
Proof.
  scan_invariant exists_ ltac:(fun b => injection H as <- <-; auto).
Qed.

Lemma is_dir_invariant path :
  forall fuel fd v fd',
    aligned fd -> is_dir fuel fd path = Ret (v, fd') ->
    aligned fd' /\ fd_data fd' = fd_data fd /\ (v = 0 \/ v = 1).
Proof.
  scan_invariant is_dir
    ltac:(fun b => destruct (Byte.eqb (hdr_typeflag b) DIRTYPE);
                   injection H as <- <-; auto).
Qed.

Lemma is_file_invariant path :
  forall fuel fd v fd',
    aligned fd -> is_file fuel fd path = Ret (v, fd') ->
    aligned fd' /\ fd_data fd' = fd_data fd /\ (v = 0 \/ v = 1).
Proof.
  scan_invariant is_file
    ltac:(fun b => destruct (Byte.eqb (hdr_typeflag b) REGTYPE
                             || Byte.eqb (hdr_typeflag b) AREGTYPE);
                   injection H as <- <-; auto).
Qed.

Lemma is_symlink_invariant path :
  forall fuel fd v fd',
    aligned fd -> is_symlink fuel fd path = Ret (v, fd') ->
    aligned fd' /\ fd_data fd' = fd_data fd /\ (v = 0 \/ v = 1).
Proof.
  scan_invariant is_symlink
    ltac:(fun b => destruct (Byte.eqb (hdr_typeflag b) SYMTYPE);
                   injection H as <- <-; auto).
Qed.

Lemma check_archive_loop_invariant :
  forall fuel fd count v fd',
    aligned fd -> check_archive_loop fuel fd count = Ret (v, fd') ->
    aligned fd' /\ fd_data fd' = fd_data fd.
Proof.
  intros fuel; induction fuel as [| fuel IH];
    intros fd count v fd' Hal H; [discriminate |].
  rewrite check_archive_loop_step in H.
  destruct (read_header fd) as [[buf fd1] |] eqn:Hread; [| discriminate].
  destruct (read_header_aligned fd buf fd1 Hal Hread) as [Hal1 Hd1].
  destruct (validate buf); [injection H as <- <-; auto |].
  destruct (check_end (lseek_cur fd1 (next_header buf))) as [[[|] |] fd3] eqn:Hend;
    [| | discriminate].
  - injection H as <- <-.
    destruct (loop_turn fd buf fd1 _ fd3 Hal Hread Hend) as (_ & _ & _ & ? & ? & _).
    auto.
  - destruct (loop_turn fd buf fd1 _ fd3 Hal Hread Hend) as (_ & _ & _ & Hal3 & Hd3 & _).
    destruct (IH fd3 _ v fd' Hal3 H) as (? & Hd).
    rewrite Hd, Hd3. auto.
Qed.

(** X8.  From a read position at a block boundary, a run of
    [check_archive], [exists], [is_dir], [is_file] or [is_symlink] in which
    every [read] delivers the bytes it asks for (the runs that have a result
    here) leaves the read position at a block boundary of the same file
    again; the lookups answer 0 or 1 and nothing else.  Nothing is said of a
    run in which a [read] comes up short. *)
Theorem scans_keep_block_alignment fuel fd path :
  aligned fd ->
  (forall v fd', check_archive fuel fd = Ret (v, fd') ->
                 aligned fd' /\ fd_data fd' = fd_data fd)
  /\ (forall v fd', exists_ fuel fd path = Ret (v, fd') ->
                    aligned fd' /\ fd_data fd' = fd_data fd /\ (v = 0 \/ v = 1))
  /\ (forall v fd', is_dir fuel fd path = Ret (v, fd') ->
                    aligned fd' /\ fd_data fd' = fd_data fd /\ (v = 0 \/ v = 1))
  /\ (forall v fd', is_file fuel fd path = Ret (v, fd') ->
                    aligned fd' /\ fd_data fd' = fd_data fd /\ (v = 0 \/ v = 1))
  /\ (forall v fd', is_symlink fuel fd path = Ret (v, fd') ->
                    aligned fd' /\ fd_data fd' = fd_data fd /\ (v = 0 \/ v = 1)).
Proof.
  intros Hal.
  split; [intros v fd' H; exact (check_archive_loop_invariant _ _ _ _ _ Hal H) |].
  split; [intros v fd' H; exact (exists_invariant _ _ _ _ _ Hal H) |].
  split; [intros v fd' H; exact (is_dir_invariant _ _ _ _ _ Hal H) |].
  split; [intros v fd' H; exact (is_file_invariant _ _ _ _ _ Hal H) |].
  intros v fd' H; exact (is_symlink_invariant _ _ _ _ _ Hal H).
Qed.

Lemma scans_keep_block_alignment_witness :
  aligned (mkFd dir_archive 2560).
Proof.
  assert (aligned (at_start dir_archive)) as Hal by (split; vm_compute; congruence).
  destruct (scans_keep_block_alignment 6 (at_start dir_archive) (path_of "dir/c/") Hal)
    as (_ & Hex & _).
  apply (Hex 1 (mkFd dir_archive 2560)). vm_compute. reflexivity.
Defined.

















(** ** Reading through one link *)

Lemma is_regular_flags (t : list byte) :
  is_regular t = true ->
  Byte.eqb (hdr_typeflag t) DIRTYPE
  || negb (Byte.eqb (hdr_typeflag t) REGTYPE || Byte.eqb (hdr_typeflag t) AREGTYPE)
  = false.
Proof.
  unfold is_regular. intros H. rewrite H.
  apply orb_true_iff in H.
  destruct H as [H | H]; apply Byte.byte_dec_bl in H; rewrite H; reflexivity.
Qed.

Lemma read_symlink_reads_first_containing fd es fd_end target offset dest len :
  walk fd es fd_end ->
  forall fuel t fd_t,
    (List.length es <= fuel)%nat ->
    first_containing target es = Some (t, fd_t) ->
    is_regular t = true ->
    read_symlink fuel fd target offset dest len
    = Ret (read_content t fd_t offset dest len).
Proof.
  induction 1 as [fd buf fd1 fd3 Hread Hend
                 | fd buf fd1 fd3 es fd_end Hread Hend Hwalk IH];
    intros [| fuel] t fd_t Hfuel Hfirst Hreg; simpl in Hfuel; try lia;
    cbn [read_symlink]; rewrite Hread;
    unfold first_containing in Hfirst; cbn [find fst] in Hfirst;
    destruct (strstr (hdr_name buf) target);
    try (injection Hfirst as <- <-;
         rewrite (is_regular_flags _ Hreg),
           (link_branch_unreachable _ (is_regular_flags _ Hreg));
         reflexivity);
    try discriminate.
  rewrite Hend. apply IH; [lia | exact Hfirst | exact Hreg].
Qed.

Lemma read_file_reaches_link fd es fd_end path offset dest len :
  walk fd es fd_end ->
  (strlen path <= 100)%nat ->
  forall fuel m h fd1,
    (List.length es + m <= fuel)%nat ->
    first_match path es = Some (h, fd1) ->
    hdr_typeflag h = SYMTYPE ->
    exists fuel',
      (m <= fuel')%nat
      /\ read_file fuel fd path offset dest len
         = one_more_hop (read_symlink fuel' fd1 (hdr_linkname h) offset dest len).
Proof.
  intros Hwalk Hpath.
  induction Hwalk as [fd buf fd1 fd3 Hread Hend
                     | fd buf fd1 fd3 es fd_end Hread Hend Hwalk IH];
    intros [| fuel] m h fd1' Hfuel Hfirst Hsym; simpl in Hfuel; try lia;
    cbn [read_file]; rewrite Hread, name_matches_has_prefix by assumption;
    unfold first_match in Hfirst; cbn [find fst] in Hfirst;
    destruct (has_prefix path buf);
    try (injection Hfirst as <- <-; rewrite Hsym;
         exists fuel; split; [lia | reflexivity]);
    try discriminate.
  rewrite Hend. apply IH; [lia | exact Hfirst | exact Hsym].
Qed.

(** X10.  Reading through one link is reading the target: when the lookup
    of [path] selects a symbolic link, and the walk from behind the link's
    header meets, as the first entry whose name contains the link name, a
    regular file, [read_file] does with that file what it does for a path
    that selects it directly (the same offset test, the same copy, the same
    value returned), having followed one link. *)
Theorem read_file_through_one_link
    fd es fd_end path fuel h fd1 es' fd_end' t fd_t offset dest len :
  walk fd es fd_end ->
  (strlen path <= 100)%nat ->
  first_match path es = Some (h, fd1) ->
  hdr_typeflag h = SYMTYPE ->
  walk fd1 es' fd_end' ->
  first_containing (hdr_linkname h) es' = Some (t, fd_t) ->
  is_regular t = true ->
  (List.length es + List.length es' <= fuel)%nat ->
  read_file fuel fd path offset dest len
  = one_more_hop (Ret (read_content t fd_t offset dest len)).
Proof.
  intros Hwalk Hpath Hfirst Hsym Hwalk' Hfirst' Hreg Hfuel.
  destruct (read_file_reaches_link fd es fd_end path offset dest len Hwalk Hpath
              fuel (List.length es') h fd1 Hfuel Hfirst Hsym) as (fuel' & Hf & ->).
  now rewrite (read_symlink_reads_first_containing fd1 es' fd_end'
                 (hdr_linkname h) offset dest len Hwalk' fuel' t fd_t Hf Hfirst' Hreg).
Qed.

Lemma read_file_through_one_link_witness :
  answer (read_file 8 (at_start chain_archive) (path_of "l2") 1 (zeros 4) 4)
  = Some (0, [x69; x00; x00; x00], 1).
Proof.
  assert (walk (at_start chain_archive)
               (fst (walked chain_archive)) (snd (walked chain_archive))) as Hw.
  { apply (walk_of_sound 64). vm_compute. reflexivity. }
  assert (strlen (path_of "l2") <= 100)%nat as Hp by (vm_compute; lia).
  assert (first_match (path_of "l2") (fst (walked chain_archive))
          = Some (fst chain_l2_entry, snd chain_l2_entry)) as Hm
      by (vm_compute; reflexivity).
  assert (hdr_typeflag (fst chain_l2_entry) = SYMTYPE) as Hs
      by (vm_compute; reflexivity).
  assert (walk (snd chain_l2_entry)
               [chain_file_entry] (snd (walked chain_archive))) as Hw'.
  { apply (walk_of_sound 64). vm_compute. reflexivity. }
  assert (first_containing (hdr_linkname (fst chain_l2_entry)) [chain_file_entry]
          = Some (fst chain_file_entry, snd chain_file_entry)) as Hm'
      by (vm_compute; reflexivity).
  assert (is_regular (fst chain_file_entry) = true) as Hr by (vm_compute; reflexivity).
  assert (List.length (fst (walked chain_archive)) + List.length [chain_file_entry]
          <= 8)%nat as Hf by (vm_compute; lia).
  rewrite (read_file_through_one_link _ _ _ _ _ _ _ _ _ _ _ 1 (zeros 4) 4
             Hw Hp Hm Hs Hw' Hm' Hr Hf).
  vm_compute. reflexivity.
Defined.

(** ** The read position is shared state *)







(** ** The checksum of a header *)

Lemma checksum_loop_app (a b : list byte) :
  forall i acc,
    checksum_loop i (a ++ b) acc
    = checksum_loop (i + Z.of_nat (List.length a)) b (checksum_loop i a acc).
Proof.
  induction a as [| x a IH]; intros i acc; cbn [app checksum_loop List.length].
  - now rewrite Z.add_0_r.
  - rewrite IH, Nat2Z.inj_succ. f_equal. lia.
Qed.

Lemma checksum_loop_outside (bs : list byte) :
  forall i acc,
    (i + Z.of_nat (List.length bs) <= 148 \/ 156 <= i) ->
    - 2 ^ 31 + 128 * Z.of_nat (List.length bs) <= acc
    < 2 ^ 31 - 128 * Z.of_nat (List.length bs) ->
    checksum_loop i bs acc = acc + sum_chars bs.
Proof.
  induction bs as [| b bs IH]; intros i acc Hi Hacc;
    cbn [checksum_loop sum_chars fold_right List.length] in *; [lia |].
  rewrite Nat2Z.inj_succ in *.
  pose proof (schar_range b) as Hb.
  assert ((i <? 148) || (i >? 155) = true) as ->.
  { apply orb_true_iff. destruct Hi as [Hi | Hi].
    - left. apply Z.ltb_lt. lia.
    - right. rewrite Z.gtb_ltb. apply Z.ltb_lt. lia. }
  rewrite to_int_small by lia.
  rewrite IH by lia. fold (sum_chars bs). lia.
Qed.

Lemma checksum_loop_inside (bs : list byte) :
  forall i acc,
    148 <= i -> i + Z.of_nat (List.length bs) <= 156 ->
    - 2 ^ 31 <= acc < 2 ^ 31 - 32 * Z.of_nat (List.length bs) ->
    checksum_loop i bs acc = acc + 32 * Z.of_nat (List.length bs).
Proof.
  induction bs as [| b bs IH]; intros i acc Hlo Hhi Hacc;
    cbn [checksum_loop List.length] in *; [lia |].
  rewrite Nat2Z.inj_succ in *.
  assert ((i <? 148) || (i >? 155) = false) as ->.
  { apply orb_false_iff. split.
    - apply Z.ltb_ge. lia.
    - rewrite Z.gtb_ltb. apply Z.ltb_ge. lia. }
  rewrite to_int_small by lia.
  rewrite IH by lia. lia.
Qed.

Lemma sum_chars_bound (bs : list byte) :
  - 128 * Z.of_nat (List.length bs) <= sum_chars bs <= 127 * Z.of_nat (List.length bs).
Proof.
  induction bs as [| b bs IH]; cbn [sum_chars fold_right List.length]; [lia |].
  fold (sum_chars bs). rewrite Nat2Z.inj_succ.
  pose proof (schar_range b). lia.
Qed.

(** X11.  The checksum that [check_archive] computes for a 512-byte header
    is the sum of its bytes, read as signed [char]s, outside the checksum
    field, plus 8 times 32 for the field: it does not depend on what the
    eight bytes of the field hold, and no addition wraps. *)
Theorem header_checksum_ignores_the_field (buf field : list byte) :
  List.length buf = 512%nat ->
  List.length field = 8%nat ->
  header_checksum buf
  = sum_chars (firstn 148 buf) + 256 + sum_chars (skipn 156 buf)
  /\ header_checksum (firstn 148 buf ++ field ++ skipn 156 buf) = header_checksum buf
  /\ -64256 <= header_checksum buf <= 64264.
Proof.
  intros Hbuf Hfield.
  assert (forall f, List.length f = 8%nat ->
            header_checksum (firstn 148 buf ++ f ++ skipn 156 buf)
            = sum_chars (firstn 148 buf) + 256 + sum_chars (skipn 156 buf)) as Hsum.
  { intros f Hf. unfold header_checksum.
    pose proof (sum_chars_bound (firstn 148 buf)) as Ha.
    pose proof (sum_chars_bound (skipn 156 buf)) as Hc.
    assert (List.length (firstn 148 buf) = 148%nat) as La
        by (rewrite length_firstn; lia).
    assert (List.length (skipn 156 buf) = 356%nat) as Lc
        by (rewrite length_skipn; lia).
    rewrite La in Ha. rewrite Lc in Hc.
    rewrite !checksum_loop_app, La, Hf.
    rewrite (checksum_loop_outside (firstn 148 buf)) by (rewrite La; lia).
    rewrite (checksum_loop_inside f) by (rewrite ?Hf; lia).
    rewrite (checksum_loop_outside (skipn 156 buf)) by (rewrite Lc; lia).
    rewrite Hf. lia. }
  assert (buf = firstn 148 buf ++ firstn 8 (skipn 148 buf) ++ skipn 156 buf) as Hsplit.
  { rewrite <- (firstn_skipn 148 buf) at 1. f_equal.
    rewrite <- (firstn_skipn 8 (skipn 148 buf)) at 1. f_equal.
    now rewrite skipn_skipn. }
  assert (header_checksum buf
          = sum_chars (firstn 148 buf) + 256 + sum_chars (skipn 156 buf)) as Hb.
  { rewrite Hsplit at 1. apply Hsum.
    rewrite length_firstn, length_skipn. lia. }
  split; [exact Hb |]. split; [rewrite Hb; now apply Hsum |].
  rewrite Hb.
  pose proof (sum_chars_bound (firstn 148 buf)) as Ha.
  pose proof (sum_chars_bound (skipn 156 buf)) as Hc.
  rewrite length_firstn in Ha. rewrite length_skipn in Hc. lia.
Qed.

Lemma header_checksum_ignores_the_field_witness :
  header_checksum (firstn 148 cycle_f ++ zeros 8 ++ skipn 156 cycle_f)
  = header_checksum cycle_f.
Proof.
  assert (List.length cycle_f = 512%nat) as Hb by (vm_compute; reflexivity).
  assert (List.length (zeros 8) = 8%nat) as Hf by (vm_compute; reflexivity).
  exact (proj1 (proj2 (header_checksum_ignores_the_field cycle_f (zeros 8) Hb Hf))).
Defined.

(** ** [list] *)

Lemma list_loop_step fuel fd path entries no_entries count home :
  list_loop (S fuel) fd path entries no_entries count home =
  match read_header fd with
  | None => Undef
  | Some (buf0, fd1) =>
      match list_decide path (list_buffer buf0) no_entries count home with
      | ListRecurse =>
          list_loop fuel (lseek_set fd1 0) (hdr_linkname (list_buffer buf0))
                    entries no_entries (-1) 0
      | ListHome depth =>
          list_continue fuel fd1 (list_buffer buf0) path entries no_entries
                        (to_int (count + 1)) depth
      | ListAdd =>
          match store_entry entries (Z.to_nat count) (hdr_name (list_buffer buf0)) with
          | None => Undef
          | Some entries' =>
              list_continue fuel fd1 (list_buffer buf0) path entries' no_entries
                            (to_int (count + 1)) home
          end
      | ListSkip =>
          list_continue fuel fd1 (list_buffer buf0) path entries no_entries count home
      end
  end.
Proof.
  cbn [list_loop].
  destruct (read_header fd) as [[buf0 fd1] |]; [| reflexivity].
  unfold list_decide, list_continue. fold (list_buffer buf0).
  cbv zeta.
  destruct (name_matches (list_buffer buf0) path); [| reflexivity].
  destruct (Byte.eqb (hdr_typeflag (list_buffer buf0)) SYMTYPE && (count =? -1));
    [reflexivity |].
  destruct (count =? -1); [reflexivity |].
  destruct (name_depth (list_buffer buf0) >? home).
  - destruct (is_nul (nth (Z.to_nat (name_depth (list_buffer buf0) + 1))
                          (hdr_name (list_buffer buf0)) NUL)); [| reflexivity].
    destruct (to_size_t count <? no_entries); reflexivity.
  - destruct (to_size_t count <? no_entries); reflexivity.
Qed.

Lemma list_decide_cases path buf no_entries count home :
  -1 <= count <= INT_MAX ->
  match list_decide path buf no_entries count home with
  | ListRecurse =>
      count = -1 /\ hdr_typeflag buf = SYMTYPE /\ name_matches buf path = true
  | ListHome depth =>
      count = -1 /\ depth = name_depth buf /\ name_matches buf path = true
  | ListAdd =>
      0 <= count < no_entries /\ name_matches buf path = true
      /\ shown home buf = true
  | ListSkip =>
      name_matches buf path = false
      \/ 0 <= count /\ (shown home buf = false \/ no_entries <= count)
  end.
Proof.
  unfold INT_MAX. intros Hcount. unfold list_decide, shown.
  destruct (name_matches buf path); [| now left].
  assert (count <> -1 ->
          match
            (if name_depth buf >? home
             then if is_nul (nth (Z.to_nat (name_depth buf + 1)) (hdr_name buf) NUL)
                  then if to_size_t count <? no_entries then ListAdd else ListSkip
                  else ListSkip
             else if to_size_t count <? no_entries then ListAdd else ListSkip)
          with
          | ListRecurse => count = -1 /\ hdr_typeflag buf = SYMTYPE /\ true = true
          | ListHome depth => count = -1 /\ depth = name_depth buf /\ true = true
          | ListAdd =>
              0 <= count < no_entries /\ true = true
              /\ (if name_depth buf >? home
                  then is_nul (nth (Z.to_nat (name_depth buf + 1)) (hdr_name buf) NUL)
                  else true) = true
          | ListSkip =>
              true = false
              \/ 0 <= count
                 /\ ((if name_depth buf >? home
                      then is_nul (nth (Z.to_nat (name_depth buf + 1)) (hdr_name buf) NUL)
                      else true) = false \/ no_entries <= count)
          end) as Hrest.
  { intros Hc.
    assert (to_size_t count = count) as -> by (apply to_size_t_small; lia).
    destruct (name_depth buf >? home).
    - destruct (is_nul _); [| right; split; [lia | now left]].
      destruct (count <? no_entries) eqn:E;
        [apply Z.ltb_lt in E | apply Z.ltb_ge in E].
      + split; [lia | split; reflexivity].
      + right. split; [lia | now right].
    - destruct (count <? no_entries) eqn:E;
        [apply Z.ltb_lt in E | apply Z.ltb_ge in E].
      + split; [lia | split; reflexivity].
      + right. split; [lia | now right]. }
  destruct (Byte.eqb (hdr_typeflag buf) SYMTYPE) eqn:Es;
    destruct (Z.eqb_spec count (-1)) as [Ec | Ec]; cbn [andb].
  - apply Byte.byte_dec_bl in Es. split; [exact Ec | split; [exact Es | reflexivity]].
  - now apply Hrest.
  - split; [exact Ec | split; reflexivity].
  - now apply Hrest.
Qed.

Lemma store_entry_spec (entries : list (list byte)) :
  forall count name entries',
    store_entry entries count name = Some entries' ->
    exists e,
      nth_error entries count = Some e
      /\ entries' = firstn count entries ++ memcpy e name (strlen name)
                                          :: skipn (S count) entries.
Proof.
  induction entries as [| e entries IH]; intros count name entries' H;
    [destruct count; discriminate |].
  destruct count as [| count]; cbn [store_entry] in H.
  - injection H as <-. exists e. split; reflexivity.
  - destruct (store_entry entries count name) as [es |] eqn:E; [| discriminate].
    injection H as <-. destruct (IH _ _ _ E) as (e0 & Hn & ->).
    exists e0. split; [exact Hn | reflexivity].
Qed.

Lemma store_entry_some (entries : list (list byte)) (count : nat) (name : list byte) :
  (count < List.length entries)%nat ->
  exists entries', store_entry entries count name = Some entries'.
Proof.
  revert count. induction entries as [| e entries IH]; intros count H;
    cbn [List.length] in H; [lia |].
  destruct count as [| count]; cbn [store_entry]; [eexists; reflexivity |].
  destruct (IH count) as [es ->]; [lia |]. eexists. reflexivity.
Qed.

Lemma store_entry_frame entries count name entries' :
  store_entry entries count name = Some entries' ->
  List.length entries' = List.length entries
  /\ forall i, i <> count -> nth_error entries' i = nth_error entries i.
Proof.
  intros H. destruct (store_entry_spec _ _ _ _ H) as (e & Hn & ->).
  assert (count < List.length entries)%nat as Hc
      by (apply nth_error_Some; congruence).
  split.
  - rewrite length_app. cbn [List.length].
    rewrite length_firstn, length_skipn. lia.
  - intros i Hi.
    destruct (Nat.lt_ge_cases i count) as [Hlt | Hge].
    + rewrite nth_error_app1 by (rewrite length_firstn; lia).
      rewrite nth_error_firstn.
      destruct (Nat.ltb_spec i count); [reflexivity | lia].
    + rewrite nth_error_app2 by (rewrite length_firstn; lia).
      rewrite length_firstn, Nat.min_l by lia.
      destruct (i - count)%nat as [| k] eqn:E; [lia |].
      cbn [nth_error]. rewrite nth_error_skipn. f_equal. lia.
Qed.

Section ListInvariant.

Variable no_entries : Z.
Hypothesis capacity : 0 <= no_entries <= INT_MAX.

Let list_inv (entries : list (list byte)) (count : Z) (r : list_result) : Prop :=
  Z.max 0 count <= ls_ret r <= no_entries
  /\ ls_no_entries r = ls_ret r
  /\ List.length (ls_entries r) = List.length entries
  /\ forall i,
      (i < Z.to_nat count)%nat \/ (Z.to_nat (ls_ret r) <= i)%nat ->
      nth_error (ls_entries r) i = nth_error entries i.

Lemma list_finish_invariant entries count fd :
  -1 <= count <= no_entries ->
  list_inv entries count (list_finish entries count fd).
Proof.
  unfold INT_MAX in capacity.
  intros Hcount. unfold list_inv, list_finish.
  destruct (count =? -1) eqn:E; cbn [ls_ret ls_no_entries ls_entries].
  - apply Z.eqb_eq in E. subst count.
    change (to_int (-1 + 1)) with 0. change (to_size_t 0) with 0.
    change (to_int 0) with 0.
    split; [lia |]. split; [reflexivity |]. split; reflexivity.
  - apply Z.eqb_neq in E.
    rewrite to_size_t_small, to_int_small by lia.
    split; [lia |]. split; [reflexivity |]. split; reflexivity.
Qed.

Lemma list_loop_invariant :
  forall fuel fd path entries count home r,
    -1 <= count <= no_entries ->
    list_loop fuel fd path entries no_entries count home = Ret r ->
    list_inv entries count r.
Proof.
  pose proof capacity as Hcap. unfold INT_MAX in Hcap.
  assert (forall fuel,
             (forall fd path entries count home r,
                 -1 <= count <= no_entries ->
                 list_loop fuel fd path entries no_entries count home = Ret r ->
                 list_inv entries count r) ->
             forall fd1 buf path entries count home r,
               -1 <= count <= no_entries ->
               list_continue fuel fd1 buf path entries no_entries count home = Ret r ->
               list_inv entries count r) as Hcont.
  { intros fuel IH fd1 buf path entries count home r Hcount H.
    unfold list_continue in H.
    destruct (check_end (lseek_cur fd1 (next_header buf))) as [[[|] |] fd3];
      [| | discriminate].
    - injection H as <-. now apply list_finish_invariant.
    - eapply IH; eassumption. }
  intros fuel. induction fuel as [| fuel IH];
    intros fd path entries count home r Hcount H; [discriminate |].
  rewrite list_loop_step in H.
  destruct (read_header fd) as [[buf0 fd1] |]; [| discriminate].
  pose proof (list_decide_cases path (list_buffer buf0) no_entries count home) as Hd.
  destruct (list_decide path (list_buffer buf0) no_entries count home) as [| depth | |].
  - destruct Hd as (-> & _); [unfold INT_MAX; lia |].
    apply (IH _ _ _ _ _ _ Hcount H).
  - destruct Hd as (-> & _); [unfold INT_MAX; lia |].
    change (to_int (-1 + 1)) with 0 in H.
    apply Hcont in H; [| exact IH | lia].
    destruct H as (H1 & H2 & H3 & H4).
    split; [lia |]. split; [exact H2 |]. split; [exact H3 |].
    intros i Hi. apply H4. destruct Hi as [Hi | Hi]; [lia | now right].
  - destruct Hd as (Hc & _); [unfold INT_MAX; lia |].
    destruct (store_entry entries (Z.to_nat count) (hdr_name (list_buffer buf0)))
      as [entries' |] eqn:Es; [| discriminate].
    rewrite to_int_small in H by lia.
    apply Hcont in H; [| exact IH | lia].
    destruct (store_entry_frame _ _ _ _ Es) as [Hlen Hframe].
    destruct H as (H1 & H2 & H3 & H4).
    split; [lia |]. split; [exact H2 |]. split; [congruence |].
    intros i Hi. rewrite H4 by lia. apply Hframe. lia.
  - apply Hcont in H; [exact H | exact IH | exact Hcount].
Qed.

End ListInvariant.

(** X12.  Whatever the archive, a call of [list] that returns, for a
    capacity [*no_entries] below 2^31, returns a count between 0 and that
    capacity, stores the same count in [*no_entries], and has written no
    slot of [entries] from that count on: the array keeps its length and
    the slots behind the count keep their content. *)
Theorem list_respects_capacity fuel fd path entries no_entries r :
  0 <= no_entries <= INT_MAX ->
  list_ fuel fd path entries no_entries = Ret r ->
  0 <= ls_ret r <= no_entries
  /\ ls_no_entries r = ls_ret r
  /\ List.length (ls_entries r) = List.length entries
  /\ forall i, (Z.to_nat (ls_ret r) <= i)%nat ->
               nth_error (ls_entries r) i = nth_error entries i.
Proof.
  intros Hcap H. unfold list_ in H.
  apply (list_loop_invariant no_entries Hcap) in H; [| lia].
  destruct H as (H1 & H2 & H3 & H4).
  split; [lia |]. split; [exact H2 |]. split; [exact H3 |].
  intros i Hi. apply H4. now right.
Qed.

Lemma list_respects_capacity_witness :
  exists r,
    list_ 8 (at_start dir_archive) (path_of "dir/") [zeros 8; zeros 8; zeros 8] 2 = Ret r
    /\ 0 <= ls_ret r <= 2
    /\ nth_error (ls_entries r) 2 = Some (zeros 8).
Proof.
  destruct (list_ 8 (at_start dir_archive) (path_of "dir/") [zeros 8; zeros 8; zeros 8] 2)
    as [r | |] eqn:E; [| vm_compute in E; discriminate | vm_compute in E; discriminate].
  exists r. split; [reflexivity |].
  assert (0 <= 2 <= INT_MAX) as Hcap by (vm_compute; split; congruence).
  destruct (list_respects_capacity _ _ _ _ _ _ Hcap E) as (H1 & _ & _ & H4).
  split; [exact H1 |].
  rewrite H4; [reflexivity |].
  assert (ls_ret r <= 2) by lia. lia.
Defined.

(** X13.  [list] has no guard against a link that leads back to itself.
    When the first block of the file is the header of a symbolic link whose
    name (with the slash that [list] appends) has both the path and the
    link's own target as a prefix, the call follows the link to offset 0
    again and again: no bound on the iterations lets it return. *)
Theorem list_never_returns_on_a_self_link fd buf0 fd1 path entries no_entries :
  read_header (lseek_set fd 0) = Some (buf0, fd1) ->
  hdr_typeflag (list_buffer buf0) = SYMTYPE ->
  name_matches (list_buffer buf0) path = true ->
  name_matches (list_buffer buf0) (hdr_linkname (list_buffer buf0)) = true ->
  forall fuel, list_ fuel fd path entries no_entries = OutOfFuel.
Proof.
  intros Hread Hsym Hpath Hself fuel. unfold list_.
  assert (lseek_set fd1 0 = lseek_set fd 0) as Hback.
  { unfold read_header, read in Hread.
    match type of Hread with
    | context [(List.length ?l =? 512)%nat] =>
        destruct (List.length l =? 512)%nat; [| discriminate]
    end.
    injection Hread as _ <-. reflexivity. }
  revert path Hpath.
  induction fuel as [| fuel IH]; intros path Hpath; [reflexivity |].
  rewrite list_loop_step, Hread.
  unfold list_decide. rewrite Hpath, Hsym.
  change (Byte.eqb SYMTYPE SYMTYPE && (-1 =? -1)) with true. cbv iota.
  rewrite Hback. apply IH. exact Hself.
Qed.

Lemma list_never_returns_on_a_self_link_witness :
  list_ 1000 (at_start self_link_archive) (path_of "l/") [zeros 4] 1 = OutOfFuel.
Proof.
  assert (read_header (lseek_set (at_start self_link_archive) 0)
          = Some (mk_header "l" SYMTYPE 0 "l", mkFd self_link_archive 512)) as Hr
      by (vm_compute; reflexivity).
  apply (list_never_returns_on_a_self_link _ _ _ _ _ _ Hr); vm_compute; reflexivity.
Defined.

Section ListOfPlainArchive.

Variable path : list byte.
Hypothesis path_fits : (strlen path <= 100)%nat.
Variable no_entries : Z.
Hypothesis capacity : 0 <= no_entries <= INT_MAX.

Lemma list_decide_behind_the_match buf count home :
  0 <= count <= no_entries ->
  list_decide path buf no_entries count home
  = if has_prefix path buf && shown home buf && (count <? no_entries)
    then ListAdd else ListSkip.
Proof.
  pose proof capacity as Hcap. unfold INT_MAX in Hcap.
  intros Hcount. unfold list_decide, shown.
  rewrite name_matches_has_prefix by exact path_fits.
  destruct (has_prefix path buf); [| reflexivity].
  destruct (Z.eqb_spec count (-1)) as [E | E]; [lia |].
  rewrite andb_false_r, to_size_t_small by lia. cbn [andb].
  destruct (name_depth buf >? home); [| reflexivity].
  now destruct (is_nul _).
Qed.

Lemma list_decide_before_the_match buf home :
  hdr_typeflag buf <> SYMTYPE ->
  list_decide path buf no_entries (-1) home
  = if has_prefix path buf then ListHome (name_depth buf) else ListSkip.
Proof.
  intros Hplain. unfold list_decide.
  rewrite name_matches_has_prefix by exact path_fits.
  destruct (has_prefix path buf); [| reflexivity].
  destruct (Byte.eqb (hdr_typeflag buf) SYMTYPE) eqn:E; [| reflexivity].
  apply Byte.byte_dec_bl in E. contradiction.
Qed.

Lemma list_buffer_plain buf : hdr_typeflag buf <> SYMTYPE -> list_buffer buf = buf.
Proof.
  intros H. unfold list_buffer.
  destruct (Byte.eqb (hdr_typeflag buf) SYMTYPE) eqn:E; [| reflexivity].
  apply Byte.byte_dec_bl in E. contradiction.
Qed.

(** The loop behind the first match computes [list_fold]. *)
Lemma list_loop_behind_the_match fd es fd_end home :
  walk fd es fd_end ->
  Forall (fun e => hdr_typeflag (fst e) <> SYMTYPE) es ->
  forall fuel entries count,
    (List.length es <= fuel)%nat ->
    0 <= count <= no_entries ->
    no_entries <= Z.of_nat (List.length entries) ->
    list_loop fuel fd path entries no_entries count home
    = Ret (mkList (snd (list_fold path no_entries home es entries count))
                  (fst (list_fold path no_entries home es entries count))
                  (snd (list_fold path no_entries home es entries count))
                  fd_end).
Proof.
  pose proof capacity as Hcap. unfold INT_MAX in Hcap.
  assert (forall entries count fd3,
             0 <= count <= no_entries ->
             list_finish entries count fd3 = mkList count entries count fd3) as Hfin.
  { intros entries count fd3 Hcount. unfold list_finish.
    destruct (Z.eqb_spec count (-1)) as [E | E]; [lia |].
    now rewrite to_size_t_small, to_int_small by lia. }
  induction 1 as [fd buf fd1 fd3 Hread Hend
                 | fd buf fd1 fd3 es fd_end Hread Hend Hwalk IH];
    intros Hplain [| fuel] entries count Hfuel Hcount Hroom; simpl in Hfuel; try lia;
    inversion Hplain as [| ? ? Hbuf Hrest]; subst; cbn [fst] in Hbuf;
    rewrite list_loop_step, Hread, (list_buffer_plain _ Hbuf),
      list_decide_behind_the_match by assumption;
    cbn [list_fold fst];
    destruct (has_prefix path buf && shown home buf && (count <? no_entries)) eqn:E.
  - apply andb_prop in E. destruct E as [_ E]. apply Z.ltb_lt in E.
    destruct (store_entry_some entries (Z.to_nat count) (hdr_name buf)) as [entries' Hs];
      [lia |].
    rewrite Hs. unfold list_continue. rewrite Hend, to_int_small by lia.
    cbn [list_fold fst snd]. apply f_equal, Hfin. lia.
  - unfold list_continue. rewrite Hend. cbn [list_fold fst snd].
    apply f_equal, Hfin. exact Hcount.
  - apply andb_prop in E. destruct E as [_ E]. apply Z.ltb_lt in E.
    destruct (store_entry_some entries (Z.to_nat count) (hdr_name buf)) as [entries' Hs];
      [lia |].
    rewrite Hs. unfold list_continue. rewrite Hend, to_int_small by lia.
    apply IH; [assumption | lia | lia |].
    destruct (store_entry_frame _ _ _ _ Hs) as [Hlen _]. now rewrite Hlen.
  - unfold list_continue. rewrite Hend.
    apply IH; [assumption | lia | assumption | assumption].
Qed.

(** What [list_fold] computes: the names of the shown matches, as many as
    there is room for, copied into the slots from [count] on. *)
Lemma list_fold_fill home es :
  forall entries count,
    0 <= count <= no_entries ->
    no_entries <= Z.of_nat (List.length entries) ->
    list_fold path no_entries home es entries count
    = (firstn (Z.to_nat count) entries
       ++ fill (skipn (Z.to_nat count) entries)
               (map fst (firstn (Z.to_nat (no_entries - count))
                           (filter (fun e => has_prefix path (fst e)
                                             && shown home (fst e)) es))),
       count
       + Z.of_nat (List.length
                     (firstn (Z.to_nat (no_entries - count))
                        (filter (fun e => has_prefix path (fst e)
                                          && shown home (fst e)) es)))).
Proof.
  assert (forall l : list (list byte), fill l [] = l) as Hnil
      by (intros [| ? ?]; reflexivity).
  induction es as [| e es IH]; intros entries count Hcount Hroom;
    cbn [list_fold filter].
  - rewrite firstn_nil. cbn [map List.length]. rewrite Hnil, firstn_skipn.
    f_equal. lia.
  - destruct (has_prefix path (fst e) && shown home (fst e)) eqn:Ec; cbn [andb];
      [| now apply IH].
    destruct (Z.ltb_spec count no_entries) as [Hlt | Hge].
    + destruct (store_entry_some entries (Z.to_nat count) (hdr_name (fst e)))
        as [entries' Hs]; [lia |].
      rewrite Hs.
      destruct (store_entry_spec _ _ _ _ Hs) as (e0 & Hn & He).
      destruct (store_entry_frame _ _ _ _ Hs) as [Hlen _].
      rewrite IH by (rewrite ?Hlen; lia).
      replace (Z.to_nat (no_entries - count))
        with (S (Z.to_nat (no_entries - (count + 1)))) by lia.
      cbn [firstn map List.length].
      assert (skipn (Z.to_nat count) entries = e0 :: skipn (S (Z.to_nat count)) entries)
        as Hsk.
      { rewrite <- (firstn_skipn (Z.to_nat count) entries) in Hn at 1.
        rewrite nth_error_app2 in Hn by (rewrite length_firstn; lia).
        rewrite length_firstn, Nat.min_l, Nat.sub_diag in Hn by lia.
        destruct (skipn (Z.to_nat count) entries) as [| x l] eqn:Ek; [discriminate |].
        injection Hn as ->. f_equal.
        change (S (Z.to_nat count)) with (1 + Z.to_nat count)%nat.
        rewrite <- skipn_skipn, Ek. reflexivity. }
      rewrite Hsk. cbn [fill].
      replace (Z.to_nat (count + 1)) with (S (Z.to_nat count)) by lia.
      assert (firstn (S (Z.to_nat count)) entries'
              = firstn (Z.to_nat count) entries ++ [memcpy e0 (hdr_name (fst e))
                                                      (strlen (hdr_name (fst e)))]) as Hf.
      { rewrite He.
        rewrite firstn_app, length_firstn, Nat.min_l by lia.
        rewrite firstn_all2 by (rewrite length_firstn; lia).
        replace (S (Z.to_nat count) - Z.to_nat count)%nat with 1%nat by lia.
        reflexivity. }
      assert (skipn (S (Z.to_nat count)) entries' = skipn (S (Z.to_nat count)) entries)
        as Hk.
      { rewrite He.
        rewrite skipn_app, length_firstn, Nat.min_l by lia.
        rewrite skipn_all2 by (rewrite length_firstn; lia).
        replace (S (Z.to_nat count) - Z.to_nat count)%nat with 1%nat by lia.
        reflexivity. }
      rewrite Hf, Hk, <- app_assoc. cbn [app].
      unfold hdr_name. f_equal. lia.
    + assert (count = no_entries) as -> by lia.
      rewrite IH by lia.
      rewrite Z.sub_diag. cbn [Z.to_nat firstn]. reflexivity.
Qed.

Lemma list_loop_before_the_match fd es fd_end :
  walk fd es fd_end ->
  Forall (fun e => hdr_typeflag (fst e) <> SYMTYPE) es ->
  forall fuel entries home,
    (List.length es <= fuel)%nat ->
    no_entries <= Z.of_nat (List.length entries) ->
    list_loop fuel fd path entries no_entries (-1) home
    = Ret (mkList (Z.of_nat (List.length (reported path es no_entries)))
                  (fill entries (reported path es no_entries))
                  (Z.of_nat (List.length (reported path es no_entries)))
                  fd_end).
Proof.
  pose proof capacity as Hcap. unfold INT_MAX in Hcap.
  assert (forall l : list (list byte), fill l [] = l) as Hnil
      by (intros [| ? ?]; reflexivity).
  induction 1 as [fd buf fd1 fd3 Hread Hend
                 | fd buf fd1 fd3 es fd_end Hread Hend Hwalk IH];
    intros Hplain [| fuel] entries home Hfuel Hroom; simpl in Hfuel; try lia;
    inversion Hplain as [| ? ? Hbuf Hrest]; subst; cbn [fst] in Hbuf;
    rewrite list_loop_step, Hread, (list_buffer_plain _ Hbuf),
      list_decide_before_the_match by assumption;
    unfold reported; cbn [listed fst];
    destruct (has_prefix path buf);
    unfold list_continue; rewrite Hend.
  - cbn [filter firstn map List.length]. rewrite firstn_nil. cbn [map List.length].
    rewrite Hnil. reflexivity.
  - cbn [firstn map List.length]. rewrite firstn_nil. cbn [map List.length].
    rewrite Hnil. reflexivity.
  - change (to_int (-1 + 1)) with 0.
    rewrite (list_loop_behind_the_match fd3 es fd_end (name_depth buf) Hwalk Hrest)
      by (assumption || lia).
    rewrite list_fold_fill by lia.
    cbn [fst snd Z.to_nat firstn skipn app]. rewrite Z.sub_0_r, Z.add_0_l.
    rewrite length_map. reflexivity.
  - apply IH; assumption || lia.
Qed.

End ListOfPlainArchive.

(** X14.  On an archive without symbolic links whose walk from offset 0
    reaches the end marker, [list] reports, in storage order and as far as
    the capacity goes, the entries stored behind the first entry whose name
    has the path as a prefix that have that prefix too and that are shown:
    those whose last slash is not further right than that of the first
    match, and those whose name ends with its last slash.  It writes their
    names into the first slots of [entries], returns their number and stores
    it in [*no_entries]; the first match itself is not reported. *)
Theorem list_reports_the_shown_matches fd es fd_end path entries no_entries fuel :
  walk (lseek_set fd 0) es fd_end ->
  Forall (fun e => hdr_typeflag (fst e) <> SYMTYPE) es ->
  (strlen path <= 100)%nat ->
  0 <= no_entries <= INT_MAX ->
  no_entries <= Z.of_nat (List.length entries) ->
  (List.length es <= fuel)%nat ->
  list_ fuel fd path entries no_entries
  = Ret (mkList (Z.of_nat (List.length (reported path es no_entries)))
                (fill entries (reported path es no_entries))
                (Z.of_nat (List.length (reported path es no_entries)))
                fd_end).
Proof.
  intros Hwalk Hplain Hpath Hcap Hroom Hfuel. unfold list_.
  now apply list_loop_before_the_match.
Qed.

Lemma list_reports_the_shown_matches_witness :
  listing (list_ 6 (mkFd nested_archive 1024) (path_of "dir/")
                 [zeros 10; zeros 10; zeros 10] 3)
  = Some (2, [list_byte_of_string "dir/c/" ++ zeros 4;
              list_byte_of_string "dir/c/f/" ++ zeros 2;
              zeros 10], 2).
Proof.
  assert (walk (lseek_set (mkFd nested_archive 1024) 0)
               (fst (walked nested_archive)) (snd (walked nested_archive))) as Hw.
  { apply (walk_of_sound 64). vm_compute. reflexivity. }
  assert (Forall (fun e => hdr_typeflag (fst e) <> SYMTYPE) (fst (walked nested_archive)))
    as Hplain.
  { apply Forall_forall. intros e Hin.
    assert (forallb (fun e => negb (Byte.eqb (hdr_typeflag (fst e)) SYMTYPE))
                    (fst (walked nested_archive)) = true) as Hb
        by (vm_compute; reflexivity).
    rewrite forallb_forall in Hb. specialize (Hb e Hin).
    intros Hs. rewrite Hs in Hb. discriminate. }
  assert (strlen (path_of "dir/") <= 100)%nat as Hp by (vm_compute; lia).
  assert (0 <= 3 <= INT_MAX) as Hcap by (vm_compute; split; congruence).
  assert (3 <= Z.of_nat (List.length [zeros 10; zeros 10; zeros 10])) as Hroom
      by (vm_compute; congruence).
  assert (List.length (fst (walked nested_archive)) <= 6)%nat as Hf by (vm_compute; lia).
  rewrite (list_reports_the_shown_matches _ _ _ _ _ _ _ Hw Hplain Hp Hcap Hroom Hf).
  vm_compute. reflexivity.
Defined.

(** ** The first revision and the last *)

Lemma next_long_is_next_header (buf : list byte) :
  TAR_INT (hdr_size buf) <= 2 ^ 31 - 512 ->
  next_long buf = next_header buf.
Proof.
  intros Hmax.
  pose proof (TAR_INT_range (hdr_size buf)) as [Hs _].
  unfold next_long, next_header. set (s := TAR_INT (hdr_size buf)) in *.
  rewrite Z.quot_div_nonneg, Z.rem_mod_nonneg by lia.
  pose proof (Z.div_mod s 512 ltac:(lia)) as Hdm.
  pose proof (Z.mod_pos_bound s 512 ltac:(lia)) as Hr.
  assert (0 <= s / 512 <= 2 ^ 22 - 1) as Hq by lia.
  rewrite (to_int_small (s / 512)), (to_long_small (s / 512)) by lia.
  destruct (s mod 512 =? 0) eqn:E; cbn [negb].
  - rewrite to_int_small, to_long_small by lia. reflexivity.
  - apply Z.eqb_neq in E.
    rewrite (to_int_small (s / 512 + 1)), (to_long_small (s / 512 + 1)) by lia.
    rewrite to_int_small, to_long_small by lia. reflexivity.
Qed.

Lemma inline_end_test {A : Type} (fd2 : fd_state) (stop go : fd_state -> outcome A) :
  (let (header_next_header, fd3) := read fd2 1024 in
   let fd4 := lseek_cur fd3 (-1024) in
   if (List.length header_next_header =? 1024)%nat
   then if add_chars header_next_header =? 0 then stop fd4 else go fd4
   else Undef)
  = match check_end fd2 with
    | (None, _) => Undef
    | (Some true, fd3) => stop fd3
    | (Some false, fd3) => go fd3
    end.
Proof.
  unfold check_end. destruct (read fd2 1024) as [bs fd3]. cbv zeta.
  destruct (List.length bs =? 1024)%nat; [| reflexivity].
  now destruct (add_chars bs =? 0).
Qed.

Lemma check_archive_rev1_loop_walk fd es fd_end :
  walk fd es fd_end ->
  Forall (fun e => TAR_INT (hdr_size (fst e)) <= 2 ^ 31 - 512) es ->
  forall fuel count,
    (List.length es <= fuel)%nat ->
    check_archive_rev1_loop fuel fd count = check_archive_loop fuel fd count.
Proof.
  induction 1 as [fd buf fd1 fd3 Hread Hend
                 | fd buf fd1 fd3 es fd_end Hread Hend Hwalk IH];
    intros Hsmall [| fuel] count Hfuel; simpl in Hfuel; try lia;
    inversion Hsmall as [| ? ? Hbuf Hrest]; subst; cbn [fst] in Hbuf;
    cbn [check_archive_rev1_loop check_archive_loop]; rewrite Hread;
    (destruct (negb (strncmp (hdr_magic buf) TMAGIC (TMAGLEN - 1) =? 0));
     [reflexivity |]);
    (destruct (negb (strncmp (hdr_version buf) TVERSION TVERSLEN =? 0));
     [reflexivity |]);
    (destruct (negb (TAR_INT (hdr_chksum buf) =? header_checksum buf));
     [reflexivity |]);
    rewrite (inline_end_test _ (fun f => Ret (to_int (count + 1), f))
               (fun f => check_archive_rev1_loop fuel f (to_int (count + 1))));
    rewrite (next_long_is_next_header buf Hbuf), Hend;
    [reflexivity |].
  apply IH; [assumption | lia].
Qed.

Lemma exists_rev1_walk fd es fd_end path :
  walk fd es fd_end ->
  Forall (fun e => TAR_INT (hdr_size (fst e)) <= 2 ^ 31 - 512) es ->
  forall fuel,
    (List.length es <= fuel)%nat ->
    exists_rev1 fuel fd path = exists_ fuel fd path.
Proof.
  induction 1 as [fd buf fd1 fd3 Hread Hend
                 | fd buf fd1 fd3 es fd_end Hread Hend Hwalk IH];
    intros Hsmall [| fuel] Hfuel; simpl in Hfuel; try lia;
    inversion Hsmall as [| ? ? Hbuf Hrest]; subst; cbn [fst] in Hbuf;
    cbn [exists_rev1 exists_]; rewrite Hread;
    (destruct (name_matches buf path); [reflexivity |]);
    rewrite (inline_end_test _ (fun f => Ret (0, f))
               (fun f => exists_rev1 fuel f path));
    rewrite (next_long_is_next_header buf Hbuf), Hend;
    [reflexivity |].
  apply IH; [assumption | lia].
Qed.

(** X15.  The first revision of [check_archive] and [exists], with the loop
    inline and [next] a [long], and the last one, with [check_end] and the
    [int] of [next_header], return the same value and leave the descriptor
    at the same place on every archive whose header walk reaches the end
    marker and whose entries are at most 2 GiB - 512 bytes long. *)
Theorem first_revision_agrees fd es fd_end fuel path :
  walk fd es fd_end ->
  Forall (fun e => TAR_INT (hdr_size (fst e)) <= 2 ^ 31 - 512) es ->
  (List.length es <= fuel)%nat ->
  check_archive_rev1 fuel fd = check_archive fuel fd
  /\ exists_rev1 fuel fd path = exists_ fuel fd path.
Proof.
  intros Hwalk Hsmall Hfuel. split.
  - unfold check_archive_rev1, check_archive.
    now apply (check_archive_rev1_loop_walk fd es fd_end).
  - now apply (exists_rev1_walk fd es fd_end).
Qed.

Lemma first_revision_agrees_witness :
  check_archive_rev1 8 (at_start nested_archive) = check_archive 8 (at_start nested_archive)
  /\ exists_rev1 8 (at_start nested_archive) (path_of "dir/c/")
     = Ret (1, mkFd nested_archive 1024).
Proof.
  assert (walk (at_start nested_archive)
               (fst (walked nested_archive)) (snd (walked nested_archive))) as Hw.
  { apply (walk_of_sound 64). vm_compute. reflexivity. }
  assert (Forall (fun e => TAR_INT (hdr_size (fst e)) <= 2 ^ 31 - 512)
                 (fst (walked nested_archive))) as Hs.
  { apply Forall_forall. intros e He.
    assert (forallb (fun e => TAR_INT (hdr_size (fst e)) <=? 2 ^ 31 - 512)
                    (fst (walked nested_archive)) = true) as Hb
        by (vm_compute; reflexivity).
    rewrite forallb_forall in Hb. apply Z.leb_le. exact (Hb e He). }
  assert (List.length (fst (walked nested_archive)) <= 8)%nat as Hf
      by (vm_compute; lia).
  destruct (first_revision_agrees _ _ _ 8 (path_of "dir/c/") Hw Hs Hf) as [Hc He].
  split; [exact Hc |].
  rewrite He. vm_compute. reflexivity.
Defined.

(** X16.  The [long] of the first revision holds the rounded size of every
    entry up to 2^63 - 512 bytes, the 2 GiB at which [next_header] wraps
    included. *)
Theorem next_long_rounds_up (buf : list byte) :
  TAR_INT (hdr_size buf) <= 2 ^ 63 - 512 ->
  next_long buf = (TAR_INT (hdr_size buf) + 511) / 512 * 512
  /\ TAR_INT (hdr_size buf) <= next_long buf < TAR_INT (hdr_size buf) + 512.
Proof.
  intros Hmax.
  pose proof (TAR_INT_range (hdr_size buf)) as [Hs _].
  unfold next_long. set (s := TAR_INT (hdr_size buf)) in *.
  rewrite Z.quot_div_nonneg, Z.rem_mod_nonneg by lia.
  pose proof (Z.div_mod s 512 ltac:(lia)) as Hdm.
  pose proof (Z.mod_pos_bound s 512 ltac:(lia)) as Hr.
  assert (0 <= s / 512 <= 2 ^ 54 - 1) as Hq by lia.
  rewrite (to_long_small (s / 512)) by lia.
  destruct (s mod 512 =? 0) eqn:E; cbn [negb].
  - apply Z.eqb_eq in E.
    assert ((s + 511) / 512 = s / 512) as ->
        by (symmetry; apply (Z.div_unique _ _ _ 511); lia).
    rewrite to_long_small by lia.
    split; [reflexivity | lia].
  - apply Z.eqb_neq in E.
    assert ((s + 511) / 512 = s / 512 + 1) as ->
        by (symmetry; apply (Z.div_unique _ _ _ (s mod 512 - 1)); lia).
    rewrite (to_long_small (s / 512 + 1)) by lia.
    rewrite to_long_small by lia.
    split; [reflexivity | lia].
Qed.

Lemma next_long_rounds_up_witness :
  next_long (mk_header "big" REGTYPE (2 ^ 31 + 1) "") = 2 ^ 31 + 512.
Proof.
  assert (TAR_INT (hdr_size (mk_header "big" REGTYPE (2 ^ 31 + 1) "")) <= 2 ^ 63 - 512)
    as H by (vm_compute; congruence).
  rewrite (proj1 (next_long_rounds_up _ H)).
  vm_compute. reflexivity.
Defined.

(** ** The lookups on one archive *)

Lemma typeflag_tests (b : byte) :
  0 <= (if Byte.eqb b DIRTYPE then 1 else 0)
  /\ 0 <= (if Byte.eqb b REGTYPE || Byte.eqb b AREGTYPE then 1 else 0)
  /\ 0 <= (if Byte.eqb b SYMTYPE then 1 else 0)
  /\ (if Byte.eqb b DIRTYPE then 1 else 0)
     + (if Byte.eqb b REGTYPE || Byte.eqb b AREGTYPE then 1 else 0)
     + (if Byte.eqb b SYMTYPE then 1 else 0) <= 1.
Proof.
  destruct (Byte.eqb b DIRTYPE) eqn:Ed;
    [apply Byte.byte_dec_bl in Ed; subst b; cbn; lia |].
  destruct (Byte.eqb b SYMTYPE) eqn:Es;
    [apply Byte.byte_dec_bl in Es; subst b; cbn; lia |].
  destruct (Byte.eqb b REGTYPE || Byte.eqb b AREGTYPE); lia.
Qed.

(** X17.  On every archive and for every path, when [exists] returns, then
    [is_dir], [is_file] and [is_symlink] return with the descriptor where
    [exists] leaves it, each answers 0 or 1, at most one of them answers 1
    and none does when [exists] answers 0; and unless [is_symlink] answers
    1, [read_file] returns as well: -1 with nothing written when [is_file]
    answers 0, and -2 or the count of the bytes left when it answers 1. *)
Theorem lookups_agree fuel fd path e fd_e offset dest len :
  0 <= offset -> 0 <= len ->
  exists_ fuel fd path = Ret (e, fd_e) ->
  exists d f s,
    is_dir fuel fd path = Ret (d, fd_e)
    /\ is_file fuel fd path = Ret (f, fd_e)
    /\ is_symlink fuel fd path = Ret (s, fd_e)
    /\ 0 <= d /\ 0 <= f /\ 0 <= s /\ d + f + s <= e <= 1
    /\ (s = 0 ->
        exists r,
          read_file fuel fd path offset dest len = Ret r
          /\ rd_hops r = 0%nat
          /\ (f = 0 ->
              rd_ret r = -1 /\ rd_dest r = dest /\ rd_len r = len /\ rd_fd r = fd_e)
          /\ (f = 1 -> rd_ret r = -2 \/ 0 <= rd_ret r)).
Proof.
  intros Hoff Hlen. revert fd.
  induction fuel as [| fuel IH]; intros fd H; [discriminate |].
  cbn [exists_ is_dir is_file is_symlink read_file] in *.
  destruct (read_header fd) as [[buf fd1] |]; [| discriminate].
  destruct (name_matches buf path).
  - injection H as <- <-.
    pose proof (typeflag_tests (hdr_typeflag buf)) as (Hd & Hf & Hs & Hsum).
    exists (if Byte.eqb (hdr_typeflag buf) DIRTYPE then 1 else 0),
      (if Byte.eqb (hdr_typeflag buf) REGTYPE || Byte.eqb (hdr_typeflag buf) AREGTYPE
       then 1 else 0),
      (if Byte.eqb (hdr_typeflag buf) SYMTYPE then 1 else 0).
    split; [now destruct (Byte.eqb (hdr_typeflag buf) DIRTYPE) |].
    split; [now destruct (Byte.eqb (hdr_typeflag buf) REGTYPE
                          || Byte.eqb (hdr_typeflag buf) AREGTYPE) |].
    split; [now destruct (Byte.eqb (hdr_typeflag buf) SYMTYPE) |].
    split; [exact Hd |]. split; [exact Hf |]. split; [exact Hs |].
    split; [lia |].
    intros Hsym.
    destruct (Byte.eqb (hdr_typeflag buf) SYMTYPE); [discriminate |].
    destruct (Byte.eqb (hdr_typeflag buf) DIRTYPE).
    + eexists. split; [reflexivity |]. split; [reflexivity |].
      split; [intros _; cbn; auto | intros Hone; lia].
    + destruct (Byte.eqb (hdr_typeflag buf) REGTYPE
                || Byte.eqb (hdr_typeflag buf) AREGTYPE); cbn [negb].
      * eexists. split; [reflexivity |].
        split; [unfold read_content;
                destruct (offset >? to_size_t (TAR_INT (hdr_size buf)));
                [reflexivity |]; destruct (read_into _ _ _); reflexivity |].
        split; [discriminate |]. intros _.
        destruct (read_content_safe buf fd1 offset dest len Hoff Hlen)
          as (_ & _ & _ & [(Hr & _) | Hr]); [left | right]; exact Hr.
      * eexists. split; [reflexivity |]. split; [reflexivity |].
        split; [intros _; cbn; auto | discriminate].
  - destruct (check_end (lseek_cur fd1 (next_header buf))) as [[[|] |] fd3];
      [| apply IH; exact H | discriminate].
    injection H as <- <-.
    exists 0, 0, 0.
    split; [reflexivity |]. split; [reflexivity |]. split; [reflexivity |].
    split; [lia |]. split; [lia |]. split; [lia |]. split; [lia |].
    intros _. eexists. split; [reflexivity |]. split; [reflexivity |].
    split; [intros _; cbn; auto | discriminate].
Qed.

Lemma lookups_agree_witness :
  exists d f s,
    is_dir 8 (at_start nested_archive) (path_of "dir/c/") = Ret (d, mkFd nested_archive 1024)
    /\ is_file 8 (at_start nested_archive) (path_of "dir/c/") = Ret (f, mkFd nested_archive 1024)
    /\ is_symlink 8 (at_start nested_archive) (path_of "dir/c/")
       = Ret (s, mkFd nested_archive 1024)
    /\ d + f + s <= 1.
Proof.
  assert (exists_ 8 (at_start nested_archive) (path_of "dir/c/")
          = Ret (1, mkFd nested_archive 1024)) as H by (vm_compute; reflexivity).
  destruct (lookups_agree 8 _ _ _ _ 0 (zeros 4) 4 ltac:(lia) ltac:(lia) H)
    as (d & f & s & Hd & Hf & Hs & _ & _ & _ & Hsum & _).
  exists d, f, s.
  split; [exact Hd |]. split; [exact Hf |]. split; [exact Hs |]. lia.
Defined.
